(** * Obtura plugin runtime: registry, configuration manager, storage, auth

    A shallow embedding of [pkg/plugin] (registry.go, config.go, the
    configuration storage file, auth.go) and of the auth plugin, with the
    properties of the runtime stated over it.

    Conventions.
    - A Go [map[string]T] is a [gmap string T]; reading a missing key of a
      [map[string]bool] gives [false], written [default false (m !! k)].
    - A Go [error] result is an [option Err]: [None] is [nil].
    - A method with a pointer receiver takes the receiver's state and
      returns the new one.
    - Code outside the repository (encoding/json, path/filepath, the
      operating system's files, the chi router) appears as an interface
      ([EncodingJSON], [PathFilepath]) or as a small explicit state
      ([FS], the list of bindings of the routers).
    - Locks are not modelled: every method runs to completion on its own. *)

From Stdlib Require Import ZArith Floats Ascii String.
From stdpp Require Import gmap strings list fin_maps.

#[local] Set Warnings "-register-all,-clear-no-such-hyp".

(** ** Values and errors *)

(** A value held in an [interface{}]: what a configuration document, a hook
    payload or a service handle can be. [AInt] stands for every integer kind
    of Go, [AFloat] for float32 and float64, [AStruct] for a struct value
    with its fields in declaration order. [AList] is a [[]interface{}], the
    slice that encoding/json decodes an array into; [ASlice elem l] is a
    slice of another type, [[]elem], such as a [[]string]: a type assertion
    to [[]interface{}] fails on it, whatever it holds. *)
Inductive Any : Type :=
| ANil
| AString (s : string)
| AFloat (f : float)
| AInt (z : Z)
| ABool (b : bool)
| AList (l : list Any)
| ASlice (elem : string) (l : list Any)
| AMap (m : gmap string Any)
| AStruct (fields : list (string * Any)).

(** [map[string]interface{}] *)
Abbreviation ConfigMap := (gmap string Any).

(** Errors. Each constructor is one [fmt.Errorf] format of the source, with
    the arguments of the format; [EExternal] is an error produced outside
    the runtime (a plugin, the operating system, encoding/json). *)
Inductive Err : Type :=
| EExternal (msg : string)
(* registry.go *)
| EAlreadyRegistered (id : string)
| EMissingDependency (id dep : string)
| EPluginNotFound (id : string)
| EInitFailed (id : string) (cause : Err)
| EStartFailed (id : string) (cause : Err)
| EStopFailed (id : string) (cause : Err)
| EStopErrors (errs : list Err)
(* config.go *)
| EInvalidConfiguration (cause : Err)
| EConvertToMap (cause : Err)
| ESaveConfig (cause : Err)
| ENoConfiguration (id : string)
| EFieldRequired (name : string)
| EField (name : string) (cause : Err)
| EExpectedString
| EMinLength (n : Z)
| EMaxLength (n : Z)
| EExpectedNumber
| EMinValue (f : float)
| EMaxValue (f : float)
| EExpectedBoolean
| EInvalidOption
| EExpectedArray
| EInvalidOptionValue (v : Any)
(* configuration storage *)
| ENoConfigurationFound (id : string)
| EReadConfigFile (cause : Err)
| EParseConfigJSON (cause : Err)
| EMarshalConfig (cause : Err)
| EWriteConfigFile (cause : Err)
| EDeleteConfigFile (cause : Err)
| EEmptyPluginID
| EInvalidPluginID (id : string)
(* auth plugin *)
| EProviderNotFound (name : string)
| EProviderAlreadyRegistered (name : string).

(** [float64(n)] for an integer [n]: the nearest binary64 number. *)
Definition float_of_Z (z : Z) : float :=
  SF2Prim (binary_normalize 53 1024 z 0 false).

(** ** Code outside the repository *)

(** encoding/json, as far as the runtime calls it. [json_Unmarshal] decodes
    into a [map[string]interface{}]. *)
Class EncodingJSON := {
  json_Marshal : Any → Err + string;
  json_MarshalIndent : Any → string → string → Err + string;
  json_Unmarshal : string → Err + ConfigMap
}.

(** path/filepath: [filepath.Join(dir, file)]. *)
Class PathFilepath := {
  filepath_Join : string → string → string
}.

(** The files of the host, and every access made to them, oldest first.
    [fs_denied] tells the paths whose writing or removal fails. A write
    that fails may have got somewhere before it did: [fs_torn] tells, for
    such a path, how many bytes went to the file after it was opened and
    truncated, and is [None] when the file could not even be opened. *)
Inductive FsOp : Type :=
| OpMkdirAll (path : string)
| OpReadFile (path : string)
| OpWriteFile (path : string) (data : string)
| OpRemove (path : string)
| OpReadDir (path : string).

Record FS : Type := mkFS {
  fs_files : gmap string string;
  fs_denied : string → bool;
  fs_torn : string → option nat;
  fs_log : list FsOp
}.

Definition fs_touch (op : FsOp) (fs : FS) : FS :=
  mkFS (fs_files fs) (fs_denied fs) (fs_torn fs) (fs_log fs ++ [op]).

(** [defaultReadFile]: os.ReadFile *)
Definition readFile (fs : FS) (path : string) : FS * (Err + string) :=
  let fs := fs_touch (OpReadFile path) fs in
  match fs_files fs !! path with
  | Some data => (fs, inr data)
  | None => (fs, inl (EExternal "no such file or directory"))
  end.

(** [defaultWriteFile]: os.WriteFile, which opens the file with O_TRUNC,
    writes the data and closes the file. When the file cannot be opened it
    is left as it was; when the write fails after that, the file holds
    the bytes that were written, none of what it held before. *)
Definition writeFile (fs : FS) (path data : string) : FS * option Err :=
  let fs := fs_touch (OpWriteFile path data) fs in
  if fs_denied fs path then
    match fs_torn fs path with
    | None => (fs, Some (EExternal "permission denied"))
    | Some n =>
        (mkFS (<[path := String.substring 0 n data]> (fs_files fs))
           (fs_denied fs) (fs_torn fs) (fs_log fs),
         Some (EExternal "no space left on device"))
    end
  else
    (mkFS (<[path := data]> (fs_files fs)) (fs_denied fs) (fs_torn fs) (fs_log fs),
     None).

(** [defaultRemoveFile]: os.Remove, a missing file is not an error. *)
Definition removeFile (fs : FS) (path : string) : FS * option Err :=
  let fs := fs_touch (OpRemove path) fs in
  if fs_denied fs path then (fs, Some (EExternal "permission denied"))
  else
    (mkFS (delete path (fs_files fs)) (fs_denied fs) (fs_torn fs) (fs_log fs),
     None).

(** [defaultEnsureDir]: os.MkdirAll *)
Definition ensureDir (fs : FS) (path : string) : FS * option Err :=
  let fs := fs_touch (OpMkdirAll path) fs in
  if fs_denied fs path then (fs, Some (EExternal "permission denied"))
  else (fs, None).

(** ** Configuration storage *)

(** [strings.Contains] *)
Fixpoint strings_Contains (s sub : string) : bool :=
  String.prefix sub s ||
  match s with
  | EmptyString => false
  | String _ s' => strings_Contains s' sub
  end.

(** [validatePluginID] *)
Definition validatePluginID (pluginID : string) : option Err :=
  if String.eqb pluginID "" then Some EEmptyPluginID
  else if strings_Contains pluginID ".." || strings_Contains pluginID "/"
          || strings_Contains pluginID "\"
  then Some (EInvalidPluginID pluginID)
  else None.

(** The interface [ConfigStorage], over the state [St] of an implementation.
    Its fourth method, [List], is called by nothing in the runtime and is
    left out. *)
Class ConfigStorage (St : Type) := {
  Load : St → string → St * (Err + ConfigMap);
  Save : St → string → ConfigMap → St * option Err;
  Delete : St → string → St * option Err
}.

(** [MemoryConfigStorage]. Load and Save copy the map they are given; a map
    here is a value, so the copy is the map. *)
Record MemoryConfigStorage : Type := mkMemoryConfigStorage {
  configs : gmap string ConfigMap
}.

Definition NewMemoryConfigStorage : MemoryConfigStorage :=
  mkMemoryConfigStorage ∅.

Definition Memory_Load (s : MemoryConfigStorage) (pluginID : string)
  : MemoryConfigStorage * (Err + ConfigMap) :=
  match configs s !! pluginID with
  | None => (s, inl (ENoConfigurationFound pluginID))
  | Some config => (s, inr config)
  end.

Definition Memory_Save (s : MemoryConfigStorage) (pluginID : string)
  (config : ConfigMap) : MemoryConfigStorage * option Err :=
  (mkMemoryConfigStorage (<[pluginID := config]> (configs s)), None).

Definition Memory_Delete (s : MemoryConfigStorage) (pluginID : string)
  : MemoryConfigStorage * option Err :=
  (mkMemoryConfigStorage (delete pluginID (configs s)), None).

#[export] Instance MemoryConfigStorage_storage : ConfigStorage MemoryConfigStorage := {
  Load := Memory_Load;
  Save := Memory_Save;
  Delete := Memory_Delete
}.

(** [JSONFileConfigStorage]: the base path, and the files it reads and
    writes. *)
Record JSONFileConfigStorage : Type := mkJSONFileConfigStorage {
  basePath : string;
  files : FS
}.

Section JSONFile.
Context {json : EncodingJSON} {fp : PathFilepath}.

(** [NewJSONFileConfigStorage] *)
Definition NewJSONFileConfigStorage (fs : FS) (base : string)
  : FS * (Err + JSONFileConfigStorage) :=
  match ensureDir fs base with
  | (fs, Some err) => (fs, inl err)
  | (fs, None) => (fs, inr (mkJSONFileConfigStorage base fs))
  end.

(** [configPath] *)
Definition configPath (s : JSONFileConfigStorage) (pluginID : string) : string :=
  filepath_Join (basePath s) (pluginID +:+ ".json").

(** [JSONFileConfigStorage.Load] *)
Definition JSONFile_Load (s : JSONFileConfigStorage) (pluginID : string)
  : JSONFileConfigStorage * (Err + ConfigMap) :=
  let filePath := configPath s pluginID in
  match readFile (files s) filePath with
  | (fs, inl err) => (mkJSONFileConfigStorage (basePath s) fs, inl (EReadConfigFile err))
  | (fs, inr data) =>
      match json_Unmarshal data with
      | inl err => (mkJSONFileConfigStorage (basePath s) fs, inl (EParseConfigJSON err))
      | inr config => (mkJSONFileConfigStorage (basePath s) fs, inr config)
      end
  end.

(** [JSONFileConfigStorage.Save] *)
Definition JSONFile_Save (s : JSONFileConfigStorage) (pluginID : string)
  (config : ConfigMap) : JSONFileConfigStorage * option Err :=
  match validatePluginID pluginID with
  | Some err => (s, Some err)
  | None =>
      match json_MarshalIndent (AMap config) "" "  " with
      | inl err => (s, Some (EMarshalConfig err))
      | inr data =>
          let filePath := configPath s pluginID in
          match writeFile (files s) filePath data with
          | (fs, Some err) =>
              (mkJSONFileConfigStorage (basePath s) fs, Some (EWriteConfigFile err))
          | (fs, None) => (mkJSONFileConfigStorage (basePath s) fs, None)
          end
      end
  end.

(** [JSONFileConfigStorage.Delete] *)
Definition JSONFile_Delete (s : JSONFileConfigStorage) (pluginID : string)
  : JSONFileConfigStorage * option Err :=
  let filePath := configPath s pluginID in
  match removeFile (files s) filePath with
  | (fs, Some err) =>
      (mkJSONFileConfigStorage (basePath s) fs, Some (EDeleteConfigFile err))
  | (fs, None) => (mkJSONFileConfigStorage (basePath s) fs, None)
  end.

#[export] Instance JSONFileConfigStorage_storage : ConfigStorage JSONFileConfigStorage := {
  Load := JSONFile_Load;
  Save := JSONFile_Save;
  Delete := JSONFile_Delete
}.
End JSONFile.

(** ** Configuration manager (config.go) *)

(** [Option]: one choice of a select or multiselect field. *)
Record Option : Type := mkOption {
  opt_Value : string;
  opt_Label : string
}.

(** [Validation]; a nil pointer is [None]. *)
Record Validation : Type := mkValidation {
  Min : option float;
  Max : option float;
  MinLen : option Z;
  MaxLen : option Z;
  Regex : string
}.

(** [ConfigField] *)
Record ConfigField : Type := mkConfigField {
  cf_Name : string;
  cf_Type : string;
  cf_Label : string;
  cf_Description : string;
  cf_Default : Any;
  cf_Required : bool;
  cf_Options : list Option;
  cf_Validation : option Validation
}.

(** [ConfigSchema] *)
Record ConfigSchema : Type := mkConfigSchema {
  Fields : list ConfigField
}.

(** [len(str)]: the number of bytes of a Go string. *)
Definition len (str : string) : Z := Z.of_nat (String.length str).

(** [toFloat64] *)
Definition toFloat64 (value : Any) : option float :=
  match value with
  | AFloat f => Some f
  | AInt z => Some (float_of_Z z)
  | _ => None
  end.

(** [isValidOption] *)
Definition isValidOption (value : Any) (options : list Option) : bool :=
  match value with
  | AString str => existsb (λ opt, String.eqb (opt_Value opt) str) options
  | _ => false
  end.

(** The first element of [values] that is not one of [options]. *)
Fixpoint firstInvalidOption (values : list Any) (options : list Option) : option Any :=
  match values with
  | [] => None
  | v :: values' =>
      if isValidOption v options then firstInvalidOption values' options
      else Some v
  end.

(** Statements that may return an error, one after the other: the second
    runs when the first returned none. *)
Definition andThen (first second : option Err) : option Err :=
  match first with
  | Some err => Some err
  | None => second
  end.

(** [validateField]. The assertion [value.([]interface{})] of the
    multiselect case holds of an [AList] only. *)
Definition validateField (value : Any) (field : ConfigField) : option Err :=
  if String.eqb (cf_Type field) "string" then
    match value with
    | AString str =>
        match cf_Validation field with
        | Some v =>
            andThen
              match MinLen v with
              | Some minLen =>
                  if (len str <? minLen)%Z then Some (EMinLength minLen) else None
              | None => None
              end
              match MaxLen v with
              | Some maxLen =>
                  if (len str >? maxLen)%Z then Some (EMaxLength maxLen) else None
              | None => None
              end
        | None => None
        end
    | _ => Some EExpectedString
    end
  else if String.eqb (cf_Type field) "number" then
    match toFloat64 value with
    | Some num =>
        match cf_Validation field with
        | Some v =>
            andThen
              match Min v with
              | Some min =>
                  if PrimFloat.ltb num min then Some (EMinValue min) else None
              | None => None
              end
              match Max v with
              | Some max =>
                  if PrimFloat.ltb max num then Some (EMaxValue max) else None
              | None => None
              end
        | None => None
        end
    | None => Some EExpectedNumber
    end
  else if String.eqb (cf_Type field) "boolean" then
    match value with
    | ABool _ => None
    | _ => Some EExpectedBoolean
    end
  else if String.eqb (cf_Type field) "select" then
    if isValidOption value (cf_Options field) then None
    else Some EInvalidOption
  else if String.eqb (cf_Type field) "multiselect" then
    match value with
    | AList values =>
        match firstInvalidOption values (cf_Options field) with
        | Some v => Some (EInvalidOptionValue v)
        | None => None
        end
    | _ => Some EExpectedArray
    end
  else None.

(** One turn of the loop of [validateConfig]: the check of one field. *)
Definition validateConfigField (configMap : ConfigMap) (field : ConfigField)
  : option Err :=
  match configMap !! cf_Name field with
  | None =>
      if cf_Required field then Some (EFieldRequired (cf_Name field))
      else None
  | Some value =>
      if cf_Required field && match value with ANil => true | _ => false end
      then Some (EFieldRequired (cf_Name field))
      else match validateField value field with
           | Some err => Some (EField (cf_Name field) err)
           | None => None
           end
  end.

(** The loop of [validateConfig]: it returns at the first field in error. *)
Fixpoint validateFields (configMap : ConfigMap) (fields : list ConfigField)
  : option Err :=
  match fields with
  | [] => None
  | field :: fields' =>
      match validateConfigField configMap field with
      | Some err => Some err
      | None => validateFields configMap fields'
      end
  end.

(** The reflected type of a struct, as [GenerateSchemaFromStruct] reads it. *)
Inductive Kind : Type :=
| KBool | KInt | KUint | KFloat | KString | KSlice | KMap | KStruct | KPtr
| KInterface.

Record StructField : Type := mkStructField {
  sf_Name : string;
  sf_IsExported : bool;
  sf_Tag : gmap string string;
  sf_Kind : Kind
}.

(** [field.Tag.Get(key)]: the empty string when the tag has no such key. *)
Definition Tag_Get (field : StructField) (key : string) : string :=
  default "" (sf_Tag field !! key).

(** [getFieldType] *)
Definition getFieldType (t : Kind) : string :=
  match t with
  | KString => "string"
  | KInt | KUint | KFloat => "number"
  | KBool => "boolean"
  | KSlice => "multiselect"
  | _ => "string"
  end.

(** [GenerateSchemaFromStruct], on the fields of the struct type of its
    argument (taken through the pointer when it is one). *)
Fixpoint schemaFields (t : list StructField) : list ConfigField :=
  match t with
  | [] => []
  | field :: t' =>
      if negb (sf_IsExported field) then schemaFields t'
      else
        let jsonTag := Tag_Get field "json" in
        if String.eqb jsonTag "-" then schemaFields t'
        else
          let defaultTag := Tag_Get field "default" in
          mkConfigField jsonTag (getFieldType (sf_Kind field))
            (Tag_Get field "label") (Tag_Get field "description")
            (if String.eqb defaultTag "" then ANil else AString defaultTag)
            (String.eqb (Tag_Get field "required") "true")
            [] None
          :: schemaFields t'
  end.

Definition GenerateSchemaFromStruct (t : list StructField) : ConfigSchema :=
  mkConfigSchema (schemaFields t).

(** [ConfigManager] *)
Record ConfigManager (St : Type) : Type := mkConfigManager {
  storage : St;
  schemas : gmap string ConfigSchema;
  cache : gmap string Any
}.
Arguments mkConfigManager {St} _ _ _.
Arguments storage {St} _.
Arguments schemas {St} _.
Arguments cache {St} _.

Section ConfigManager.
Context {json : EncodingJSON} {St : Type} {store : ConfigStorage St}.

(** [NewConfigManagerWithStorage] *)
Definition NewConfigManagerWithStorage (st : St) : ConfigManager St :=
  mkConfigManager st ∅ ∅.

(** [RegisterSchema] *)
Definition RegisterSchema (cm : ConfigManager St) (pluginID : string)
  (schema : ConfigSchema) : ConfigManager St :=
  mkConfigManager (storage cm) (<[pluginID := schema]> (schemas cm)) (cache cm).

(** [GetSchema] *)
Definition GetSchema (cm : ConfigManager St) (pluginID : string)
  : option ConfigSchema :=
  schemas cm !! pluginID.

(** [toMap] *)
Definition toMap (v : Any) : Err + ConfigMap :=
  match v with
  | AMap m => inr m
  | _ =>
      match json_Marshal v with
      | inl err => inl err
      | inr data => json_Unmarshal data
      end
  end.

(** [validateConfig] *)
Definition validateConfig (config : Any) (schema : ConfigSchema) : option Err :=
  match toMap config with
  | inl err => Some err
  | inr configMap => validateFields configMap (Fields schema)
  end.

(** [ConfigManager.SetConfig] *)
Definition SetConfig (cm : ConfigManager St) (pluginID : string) (config : Any)
  : ConfigManager St * option Err :=
  match
    match schemas cm !! pluginID with
    | Some schema => validateConfig config schema
    | None => None
    end
  with
  | Some err => (cm, Some (EInvalidConfiguration err))
  | None =>
      match toMap config with
      | inl err => (cm, Some (EConvertToMap err))
      | inr configMap =>
          match Save (storage cm) pluginID configMap with
          | (st, Some err) =>
              (mkConfigManager st (schemas cm) (cache cm), Some (ESaveConfig err))
          | (st, None) =>
              (mkConfigManager st (schemas cm) (<[pluginID := config]> (cache cm)),
               None)
          end
      end
  end.

(** [ConfigManager.GetConfig] *)
Definition GetConfig (cm : ConfigManager St) (pluginID : string)
  : ConfigManager St * (Any * bool) :=
  match cache cm !! pluginID with
  | Some config => (cm, (config, true))
  | None =>
      match Load (storage cm) pluginID with
      | (st, inl _) => (mkConfigManager st (schemas cm) (cache cm), (ANil, false))
      | (st, inr configMap) =>
          (mkConfigManager st (schemas cm)
             (<[pluginID := AMap configMap]> (cache cm)),
           (AMap configMap, true))
      end
  end.

(** [SaveConfig] *)
Definition SaveConfig (cm : ConfigManager St) (pluginID : string) (config : Any)
  : ConfigManager St * option Err :=
  SetConfig cm pluginID config.
End ConfigManager.

(** ** Plugins and routes (plugin.go) *)

(** An HTTP request and the response written for it, as far as the runtime
    looks at them; an [http.Handler] answers a request. *)
Record Request : Type := mkRequest {
  req_Method : string;
  req_Path : string
}.

Record Response : Type := mkResponse {
  res_Status : Z;
  res_Body : string
}.

Definition Handler : Type := Request → Response.

(** [func(http.Handler) http.Handler] *)
Definition Middleware : Type := Handler → Handler.

(** [Route] *)
Record Route : Type := mkRoute {
  rt_Method : string;
  rt_Path : string;
  rt_Handler : Handler;
  rt_Middlewares : list Middleware
}.

(** The router [*chi.Mux] is an object of the host: the registry holds a
    reference to it, and a bound route is an entry in the table of that
    router. *)
Definition RouterRef : Type := nat.

(** The method of the router a route was bound with; [VHandleFunc] serves
    every HTTP method. *)
Inductive Verb : Type := VGet | VPost | VPut | VDelete | VPatch | VHandleFunc.

Record Binding : Type := mkBinding {
  b_router : RouterRef;
  b_verb : Verb;
  b_pattern : string;
  b_handler : Handler
}.

Section Registry.
(** [W] is whatever the plugins own and change when their methods run. *)
Context {W : Type}.

(** [HookHandler] *)
Definition HookHandler : Type := W → Any → W * (Any * option Err).

(** A plugin: the methods of the interface [Plugin], and for each optional
    interface ([ServicePlugin], [HookablePlugin], [RoutablePlugin],
    [AdminPlugin]) what its method returns when the plugin implements it.
    [p_Config] is the struct type of what [Config()] returns. *)
Record Plugin : Type := mkPlugin {
  p_ID : string;
  p_Dependencies : list string;
  p_Init : W → W * option Err;
  p_Start : W → W * option Err;
  p_Stop : W → W * option Err;
  p_Config : list StructField;
  p_DefaultConfig : Any;
  p_Service : option Any;
  p_Hooks : option (gmap string HookHandler);
  p_Routes : option (list Route);
  p_AdminRoutes : option (list Route)
}.

Context {json : EncodingJSON} {St : Type} {store : ConfigStorage St}.

(** ** Registry (registry.go) *)

(** [Registry]. The event channel is left out. [bound] is not a field of
    the struct: it is the content of the routers the registry was given,
    every binding made on them, oldest first. *)
Record Registry : Type := mkRegistry {
  plugins : gmap string Plugin;
  services : gmap string Any;
  hooks : gmap string (list HookHandler);
  router : option RouterRef;
  routes : list Route;
  initialized : gmap string bool;
  started : gmap string bool;
  configManager : ConfigManager St;
  bound : list Binding
}.

(** [NewRegistry], given the storage it builds its configuration manager
    on. *)
Definition NewRegistry (router : option RouterRef) (configStorage : St)
  : Registry :=
  mkRegistry ∅ ∅ ∅ router [] ∅ ∅ (NewConfigManagerWithStorage configStorage) [].

(** [_, exists := m[k]] *)
Definition exists_in {A : Type} (m : gmap string A) (k : string) : bool :=
  match m !! k with
  | Some _ => true
  | None => false
  end.

(** The loop of [registerRoute] over the middlewares, last to first. *)
Definition applyMiddlewares (middlewares : list Middleware) (handler : Handler)
  : Handler :=
  foldr (λ mw h, mw h) handler middlewares.

(** The switch of [registerRoute] on the method of the route. *)
Definition verbOf (method : string) : Verb :=
  if String.eqb method "GET" then VGet
  else if String.eqb method "POST" then VPost
  else if String.eqb method "PUT" then VPut
  else if String.eqb method "DELETE" then VDelete
  else if String.eqb method "PATCH" then VPatch
  else VHandleFunc.

(** What [registerRoute] binds on router [ref] for [route]. *)
Definition bindingOf (ref : RouterRef) (route : Route) : Binding :=
  let handler := applyMiddlewares (rt_Middlewares route) (rt_Handler route) in
  mkBinding ref (verbOf (rt_Method route)) (rt_Path route)
    (λ req, handler req).

(** [registerRoute] *)
Definition registerRoute (r : Registry) (route : Route) : Registry :=
  match router r with
  | None =>
      mkRegistry (plugins r) (services r) (hooks r) (router r)
        (routes r ++ [route]) (initialized r) (started r) (configManager r)
        (bound r)
  | Some ref =>
      mkRegistry (plugins r) (services r) (hooks r) (router r)
        (routes r) (initialized r) (started r) (configManager r)
        (bound r ++ [bindingOf ref route])
  end.

(** The loop of [Register] over [hp.Hooks()]: each handler goes to the end
    of the list of its hook name. *)
Definition registerHooks (table : gmap string (list HookHandler))
  (handlers : gmap string HookHandler) : gmap string (list HookHandler) :=
  map_fold (λ hookName handler table,
              <[hookName := default [] (table !! hookName) ++ [handler]]> table)
           table handlers.

(** [route.Path = "/admin" + route.Path] *)
Definition adminRoute (route : Route) : Route :=
  mkRoute (rt_Method route) ("/admin" +:+ rt_Path route) (rt_Handler route)
    (rt_Middlewares route).

(** The routes [Register] passes to [registerRoute] for a plugin, in the
    order it passes them. *)
Definition contributedRoutes (p : Plugin) : list Route :=
  default [] (p_Routes p) ++ (adminRoute <$> default [] (p_AdminRoutes p)).

(** [Register] *)
Definition Register (r : Registry) (p : Plugin) : Registry * option Err :=
  let id := p_ID p in
  if exists_in (plugins r) id then (r, Some (EAlreadyRegistered id))
  else
    match List.find (λ dep, negb (exists_in (plugins r) dep)) (p_Dependencies p) with
    | Some dep => (r, Some (EMissingDependency id dep))
    | None =>
        let cm := (SetConfig (configManager r) id (p_DefaultConfig p)).1 in
        let cm := RegisterSchema cm id (GenerateSchemaFromStruct (p_Config p)) in
        let r :=
          mkRegistry (<[id := p]> (plugins r))
            match p_Service p with
            | Some service => <[id := service]> (services r)
            | None => services r
            end
            match p_Hooks p with
            | Some handlers => registerHooks (hooks r) handlers
            | None => hooks r
            end
            (router r) (routes r) (initialized r) (started r) cm (bound r) in
        let r := foldl registerRoute r (default [] (p_Routes p)) in
        let r := foldl registerRoute r (adminRoute <$> default [] (p_AdminRoutes p)) in
        (r, None)
    end.

(** [SetRouter]; the loop ranges over the routes stored when it starts. *)
Definition SetRouter (r : Registry) (router : option RouterRef) : Registry :=
  let r :=
    mkRegistry (plugins r) (services r) (hooks r) router (routes r)
      (initialized r) (started r) (configManager r) (bound r) in
  let r := foldl registerRoute r (routes r) in
  mkRegistry (plugins r) (services r) (hooks r) (Registry.router r) []
    (initialized r) (started r) (configManager r) (bound r).

(** [GetService] *)
Definition GetService (r : Registry) (id : string) : option Any :=
  services r !! id.

(** [IsEnabled] *)
Definition IsEnabled (r : Registry) (pluginID : string) : bool :=
  default false (started r !! pluginID).

(** [Get] *)
Definition Get (r : Registry) (pluginID : string) : Err + Plugin :=
  match plugins r !! pluginID with
  | Some p => inr p
  | None => inl (EPluginNotFound pluginID)
  end.

(** [List]: the registered plugins, in one of the orders a loop over the
    map can take. *)
Definition ListPlugins (r : Registry) : list Plugin :=
  (map_to_list (plugins r)).*2.

(** [Registry.GetConfig] *)
Definition Registry_GetConfig (r : Registry) (pluginID : string)
  : Registry * (Any * bool) :=
  let '(cm, res) := GetConfig (configManager r) pluginID in
  (mkRegistry (plugins r) (services r) (hooks r) (router r) (routes r)
     (initialized r) (started r) cm (bound r), res).

(** The loop of [ExecuteHook]. *)
Fixpoint runHandlers (handlers : list HookHandler) (w : W) (result : Any)
  : W * (Any * option Err) :=
  match handlers with
  | [] => (w, (result, None))
  | handler :: handlers' =>
      match handler w result with
      | (w, (_, Some err)) => (w, (ANil, Some err))
      | (w, (result, None)) => runHandlers handlers' w result
      end
  end.

(** [ExecuteHook] *)
Definition ExecuteHook (r : Registry) (w : W) (hookName : string) (data : Any)
  : W * (Any * option Err) :=
  runHandlers (default [] (hooks r !! hookName)) w data.
End Registry.

(** ** Lifecycle (registry.go) *)

Inductive Phase : Type := PInit | PStart | PStop.

(** One call of a lifecycle method of a plugin, with what it returned. *)
Record Call : Type := mkCall {
  call_phase : Phase;
  call_id : string;
  call_err : option Err
}.

Section Lifecycle.
Context {W : Type} {St : Type}.

(** A run of the lifecycle: the registry, what the plugins own, and the
    calls made so far, oldest first. [run_calls] is not in the source; it
    records which methods ran, and in what order. *)
Record Run : Type := mkRun {
  run_reg : @Registry W St;
  run_world : W;
  run_calls : list Call
}.

(** A [for] loop whose body may return an error, which ends the loop.
    [None] is a body that did not return. *)
Fixpoint each {A : Type} (body : Run → A → option (Run * option Err))
  (s : Run) (l : list A) : option (Run * option Err) :=
  match l with
  | [] => Some (s, None)
  | x :: l' =>
      match body s x with
      | None => None
      | Some (s, Some err) => Some (s, Some err)
      | Some (s, None) => each body s l'
      end
  end.

(** [r.initialized[id] = true] *)
Definition markInitialized (r : @Registry W St) (id : string) : Registry :=
  mkRegistry (plugins r) (services r) (hooks r) (router r) (routes r)
    (<[id := true]> (initialized r)) (started r) (configManager r) (bound r).

(** [r.started[id] = b] *)
Definition markStarted (r : @Registry W St) (id : string) (b : bool) : Registry :=
  mkRegistry (plugins r) (services r) (hooks r) (router r) (routes r)
    (initialized r) (<[id := b]> (started r)) (configManager r) (bound r).

(** [initializePlugin]. The source recurses without a bound; [fuel] is
    the depth the recursion may reach, and [None] is a recursion that went
    deeper. *)
Fixpoint initializePlugin (fuel : nat) (s : Run) (p : Plugin)
  : option (Run * option Err) :=
  match fuel with
  | O => None
  | S fuel =>
      let id := p_ID p in
      if default false (initialized (run_reg s) !! id) then Some (s, None)
      else
        match
          each (λ s depID,
                  match plugins (run_reg s) !! depID with
                  | Some dep => initializePlugin fuel s dep
                  | None => Some (s, None)
                  end)
               s (p_Dependencies p)
        with
        | None => None
        | Some (s, Some err) => Some (s, Some err)
        | Some (s, None) =>
            match p_Init p (run_world s) with
            | (w, Some err) =>
                Some (mkRun (run_reg s) w
                        (run_calls s ++ [mkCall PInit id (Some err)]),
                      Some (EInitFailed id err))
            | (w, None) =>
                Some (mkRun (markInitialized (run_reg s) id) w
                        (run_calls s ++ [mkCall PInit id None]),
                      None)
            end
        end
  end.

(** [Initialize]; [visit] is the order in which the loop meets the
    plugins of the map. *)
Definition Initialize (fuel : nat) (visit : list Plugin) (s : Run)
  : option (Run * option Err) :=
  each (initializePlugin fuel) s visit.

(** [startPlugin] *)
Fixpoint startPlugin (fuel : nat) (s : Run) (p : Plugin)
  : option (Run * option Err) :=
  match fuel with
  | O => None
  | S fuel =>
      let id := p_ID p in
      if default false (started (run_reg s) !! id) then Some (s, None)
      else
        match
          each (λ s depID,
                  match plugins (run_reg s) !! depID with
                  | Some dep => startPlugin fuel s dep
                  | None => Some (s, None)
                  end)
               s (p_Dependencies p)
        with
        | None => None
        | Some (s, Some err) => Some (s, Some err)
        | Some (s, None) =>
            match p_Start p (run_world s) with
            | (w, Some err) =>
                Some (mkRun (run_reg s) w
                        (run_calls s ++ [mkCall PStart id (Some err)]),
                      Some (EStartFailed id err))
            | (w, None) =>
                Some (mkRun (markStarted (run_reg s) id true) w
                        (run_calls s ++ [mkCall PStart id None]),
                      None)
            end
        end
  end.

(** [Start]; the event processor it launches is left out. *)
Definition Start (fuel : nat) (visit : list Plugin) (s : Run)
  : option (Run * option Err) :=
  each (startPlugin fuel) s visit.

(** The loop of [Stop]: the run after it, and the errors collected. *)
Fixpoint stopPlugins (visit : list Plugin) (s : Run) (errs : list Err)
  : Run * list Err :=
  match visit with
  | [] => (s, errs)
  | p :: visit' =>
      if default false (started (run_reg s) !! p_ID p) then
        match p_Stop p (run_world s) with
        | (w, Some err) =>
            stopPlugins visit'
              (mkRun (markStarted (run_reg s) (p_ID p) false) w
                 (run_calls s ++ [mkCall PStop (p_ID p) (Some err)]))
              (errs ++ [EStopFailed (p_ID p) err])
        | (w, None) =>
            stopPlugins visit'
              (mkRun (markStarted (run_reg s) (p_ID p) false) w
                 (run_calls s ++ [mkCall PStop (p_ID p) None]))
              errs
        end
      else stopPlugins visit' s errs
  end.

(** [Stop] *)
Definition Stop (visit : list Plugin) (s : Run) : Run * option Err :=
  let '(s, errs) := stopPlugins visit s [] in
  if (0 <? length errs)%nat then (s, Some (EStopErrors errs))
  else (s, None).
End Lifecycle.

(** ** Auth providers (auth.go) and the auth plugin *)

(** The interface [AuthProvider], as far as the auth plugin calls it. *)
Record AuthProvider : Type := mkAuthProvider {
  ap_Name : string;
  ap_IsAuthenticated : Request → bool;
  ap_RequireAuth : Middleware;
  ap_RequireRole : list string → Middleware
}.

(** [NoAuthProvider] *)
Definition NoAuthProvider : AuthProvider := {|
  ap_Name := "none";
  ap_IsAuthenticated := λ r, true;
  ap_RequireAuth := λ next, next;
  ap_RequireRole := λ roles next, next
|}.

Module Auth.
(** The auth plugin: its provider table and the name of the active one. *)
Record Plugin : Type := mkPlugin {
  providers : gmap string AuthProvider;
  active : string;
  config_ActiveProvider : string
}.

(** [NewPlugin] *)
Definition NewPlugin : Plugin := mkPlugin ∅ "" "basic".

(** [GetProvider] *)
Definition GetProvider (p : Plugin) (name : string) : option AuthProvider :=
  providers p !! name.

(** [GetActiveProvider] *)
Definition GetActiveProvider (p : Plugin) : AuthProvider :=
  match providers p !! active p with
  | Some provider => provider
  | None => NoAuthProvider
  end.

(** [SetActiveProvider] *)
Definition SetActiveProvider (p : Plugin) (name : string) : Plugin * option Err :=
  match providers p !! name with
  | None => (p, Some (EProviderNotFound name))
  | Some _ => (mkPlugin (providers p) name name, None)
  end.

(** [RegisterProvider] *)
Definition RegisterProvider (p : Plugin) (provider : AuthProvider)
  : Plugin * option Err :=
  let name := ap_Name provider in
  match providers p !! name with
  | Some _ => (p, Some (EProviderAlreadyRegistered name))
  | None => (mkPlugin (<[name := provider]> (providers p)) (active p)
               (config_ActiveProvider p), None)
  end.

(** [Init], given the basic provider it builds. *)
Definition Init (p : Plugin) (basic : AuthProvider) : Plugin :=
  let p := (RegisterProvider p basic).1 in
  let p := (RegisterProvider p NoAuthProvider).1 in
  mkPlugin (providers p) (config_ActiveProvider p) (config_ActiveProvider p).

(** [Middleware] *)
Definition Middleware (p : Plugin) : Middleware :=
  ap_RequireAuth (GetActiveProvider p).

(** [RequireAdmin] *)
Definition RequireAdmin (p : Plugin) : Handler → Handler :=
  ap_RequireRole (GetActiveProvider p) ["admin"].
End Auth.

(** ** More of the storage, the manager and the registry *)

(** [MemoryConfigStorage.List]: the ids that have a configuration, in one
    of the orders a loop over the map can take. *)
Definition Memory_List (s : MemoryConfigStorage)
  : MemoryConfigStorage * (Err + list string) :=
  (s, inr (map_to_list (configs s)).*1).

(** [Event], without its context. *)
Record Event : Type := mkEvent {
  ev_Name : string;
  ev_Source : string;
  ev_Data : Any
}.

(** The capacity [NewRegistry] gives to the channel of events. *)
Definition eventCapacity : nat := 100.

(** [EmitEvent], on the events that wait in the channel of the registry,
    oldest first: the send goes through when the buffer has room, and the
    default branch of the select drops the event otherwise. *)
Definition EmitEvent (events : list Event) (event : Event) : list Event :=
  if length events <? eventCapacity then events ++ [event] else events.

Section LoadConfig.
Context {json : EncodingJSON} {St : Type} {store : ConfigStorage St}.

(** [ConfigManager.LoadConfig]. [unmarshalInto data target] stands for
    [json.Unmarshal(jsonData, target)], which fills a struct of the caller:
    it gives the struct after the call and the error. *)
Definition LoadConfig {T : Type} (cm : ConfigManager St) (pluginID : string)
  (unmarshalInto : string → T → T * option Err) (target : T)
  : ConfigManager St * (T * option Err) :=
  match GetConfig cm pluginID with
  | (cm, (_, false)) => (cm, (target, Some (ENoConfiguration pluginID)))
  | (cm, (config, true)) =>
      match json_Marshal config with
      | inl err => (cm, (target, Some err))
      | inr jsonData => (cm, unmarshalInto jsonData target)
      end
  end.
End LoadConfig.

Section RegistrySetConfig.
Context {json : EncodingJSON} {W St : Type} {store : ConfigStorage St}.

(** Two methods of the interface [Plugin] that the record [Plugin] leaves
    out, on what the plugins own: [decodeConfig p data] is
    [json.Unmarshal(data, p.Config())], which fills the configuration
    struct of the plugin, and [ValidateConfig p] is [p.ValidateConfig()]. *)
Variables (decodeConfig : @Plugin W → string → W → W * option Err)
          (ValidateConfig : @Plugin W → W → option Err).

(** The registry with another configuration manager. *)
Definition withConfigManager (r : @Registry W St) (cm : ConfigManager St)
  : Registry :=
  mkRegistry (plugins r) (services r) (hooks r) (router r) (routes r)
    (initialized r) (started r) cm (bound r).

(** [Registry.SetConfig]. Its error for an unknown plugin has the words of
    the one of [Get] in another order. *)
Definition Registry_SetConfig (r : @Registry W St) (w : W) (pluginID : string)
  (config : Any) : Registry * W * option Err :=
  match plugins r !! pluginID with
  | None => (r, w, Some (EPluginNotFound pluginID))
  | Some p =>
      match SetConfig (configManager r) pluginID config with
      | (cm, Some err) => (withConfigManager r cm, w, Some err)
      | (cm, None) =>
          match LoadConfig cm pluginID (decodeConfig p) w with
          | (cm, (w, Some err)) => (withConfigManager r cm, w, Some err)
          | (cm, (w, None)) =>
              match ValidateConfig p w with
              | Some err => (withConfigManager r cm, w, Some err)
              | None => (withConfigManager r cm, w, None)
              end
          end
      end
  end.
End RegistrySetConfig.

(** ** Stand-ins and data for the examples *)

(** A codec that refuses every document. The examples below hold
    configurations that are maps already and never reach it. *)
Definition refusingJSON : EncodingJSON := {|
  json_Marshal := λ _, inl (EExternal "json: unsupported");
  json_MarshalIndent := λ _ _ _, inl (EExternal "json: unsupported");
  json_Unmarshal := λ _, inl (EExternal "json: unsupported")
|}.

(** Joining with a separator; the cleaning of the result is left out. *)
Definition plainJoin : PathFilepath := {|
  filepath_Join := λ dir file, dir +:+ "/" +:+ file
|}.

(** A plugin with no optional interface, whose methods all succeed. *)
Definition basePlugin (id : string) (deps : list string) : @Plugin unit :=
  mkPlugin id deps (λ w, (w, None)) (λ w, (w, None)) (λ w, (w, None))
    [] (AMap ∅) None None None None.

(** Hook handlers over strings: one appends a suffix, one fails. *)
Definition appendHandler (suffix : string) : @HookHandler unit :=
  λ w data,
    match data with
    | AString s => (w, (AString (s +:+ suffix), None))
    | _ => (w, (data, Some (EExternal "not a string")))
    end.

Definition failingHandler : @HookHandler unit :=
  λ w data, (w, (data, Some (EExternal "boom"))).

Definition hookPlugin (id : string) (h : @HookHandler unit) : @Plugin unit :=
  mkPlugin id [] (λ w, (w, None)) (λ w, (w, None)) (λ w, (w, None))
    [] (AMap ∅) None (Some {["before_save" := h]}) None None.

(** [Register] one plugin after the other, from left to right, whatever
    each call returns. *)
Definition registerAll {json : EncodingJSON} {W St : Type} {store : ConfigStorage St}
  (r : @Registry W St) (ps : list Plugin) : Registry :=
  foldl (λ r p, (Register r p).1) r ps.

Definition emptyRegistry : @Registry unit MemoryConfigStorage :=
  NewRegistry None NewMemoryConfigStorage.

(** ** Statements about hooks *)

(** The handlers of a list all succeed, each one on the result of the one
    before: from [w] and [v] they lead to [w'] and [v']. *)
Inductive Pipeline {W : Type}
  : list (@HookHandler W) → W → Any → W → Any → Prop :=
| Pipeline_nil w v : Pipeline [] w v w v
| Pipeline_cons h hs w v w1 v1 w2 v2 :
    h w v = (w1, (v1, None)) →
    Pipeline hs w1 v1 w2 v2 →
    Pipeline (h :: hs) w v w2 v2.

(** The handlers a registry holds for a hook name. *)
Definition handlersOf {W St : Type} (r : @Registry W St) (hookName : string)
  : list HookHandler :=
  default [] (hooks r !! hookName).

(** The handler a plugin brings for a hook name, as a list. *)
Definition handlerOf {W : Type} (p : @Plugin W) (hookName : string)
  : list HookHandler :=
  match p_Hooks p with
  | Some handlers =>
      match handlers !! hookName with
      | Some h => [h]
      | None => []
      end
  | None => []
  end.

Definition hookRegistry : @Registry unit MemoryConfigStorage :=
  registerAll (json := refusingJSON) emptyRegistry
    [hookPlugin "com.example.a" (appendHandler "|A");
     hookPlugin "com.example.b" failingHandler].

Definition failFirstRegistry : @Registry unit MemoryConfigStorage :=
  registerAll (json := refusingJSON) emptyRegistry
    [hookPlugin "com.example.b" failingHandler;
     hookPlugin "com.example.a" (appendHandler "|A")].


(** ** Statements about the file storage *)

(** A storage on the directory "configs" that holds one file outside of it,
    reached from the directory by "..". *)
Definition outsideFile : string := "configs/../evil.json".

Definition fileStorage : JSONFileConfigStorage :=
  mkJSONFileConfigStorage "configs"
    (mkFS {[outsideFile := "{}"]} (λ _, false) (λ _, None) []).

(** ** Statements about string lengths *)

(** A byte [10xxxxxx] continues a code point begun before it. *)
Definition isContinuation (c : ascii) : bool :=
  let n := N_of_ascii c in
  ((128 <=? n) && (n <? 192))%N.

(** The number of code points of a string that holds well-formed UTF-8:
    the bytes that begin one. *)
Fixpoint codePoints (str : string) : Z :=
  match str with
  | EmptyString => 0
  | String c str' => ((if isContinuation c then 0 else 1) + codePoints str')%Z
  end.

(** The text made of the single letter e with an acute accent: U+00E9, the
    two bytes C3 A9. *)
Definition eAcute : string :=
  String (ascii_of_N 195) (String (ascii_of_N 169) EmptyString).

(** A string field with the given bounds on its length. *)
Definition stringField (minLen maxLen : option Z) : ConfigField :=
  mkConfigField "name" "string" "" "" ANil false []
    (Some (mkValidation None None minLen maxLen "")).

(** ** Statements about Stop *)

(** The error [Stop] collects for a call, when the call returned one. *)
Definition stopError (c : Call) : option Err :=
  EStopFailed (call_id c) <$> call_err c.

(** A plugin whose Stop returns an error. *)
Definition stubbornPlugin (id : string) : @Plugin unit :=
  mkPlugin id [] (λ w, (w, None)) (λ w, (w, None))
    (λ w, (w, Some (EExternal "busy")))
    [] (AMap ∅) None None None None.

Definition stopVisit : list (@Plugin unit) :=
  [stubbornPlugin "com.example.a"; basePlugin "com.example.b" []].

(** Two plugins registered, initialized and started. *)
Definition startedRun : @Run unit MemoryConfigStorage :=
  let r := registerAll (json := refusingJSON) emptyRegistry stopVisit in
  let s := mkRun r () [] in
  match Initialize 3 stopVisit s with
  | Some (s1, None) =>
      match Start 3 stopVisit s1 with
      | Some (s2, None) => s2
      | _ => s1
      end
  | _ => s
  end.

(** ** Statements about Register and SetRouter *)

(** A sequence of [Register] calls: the registry after them, and what each
    call returned. *)
Fixpoint registerSeq {json : EncodingJSON} {W St : Type} {store : ConfigStorage St}
  (r : @Registry W St) (ps : list Plugin) : Registry * list (option Err) :=
  match ps with
  | [] => (r, [])
  | p :: ps' =>
      let '(r1, res) := Register r p in
      let '(r2, ress) := registerSeq r1 ps' in
      (r2, res :: ress)
  end.

(** A call of the host on the registry: [Register], or [SetRouter] with a
    router or with nil. *)
Inductive RegistryOp {W : Type} : Type :=
| OpRegister (p : @Plugin W)
| OpSetRouter (router : option RouterRef).
Arguments RegistryOp : clear implicits.

Definition isSetRouter {W : Type} (op : RegistryOp W) : bool :=
  match op with
  | OpSetRouter _ => true
  | OpRegister _ => false
  end.

(** The call is not [SetRouter(nil)]. *)
Definition givesRouter {W : Type} (op : RegistryOp W) : bool :=
  match op with
  | OpSetRouter None => false
  | _ => true
  end.

Section Ops.
Context {json : EncodingJSON} {W St : Type} {store : ConfigStorage St}.

Definition runOp (r : @Registry W St) (op : RegistryOp W) : Registry :=
  match op with
  | OpRegister p => (Register r p).1
  | OpSetRouter router => SetRouter r router
  end.

Definition runOps (r : @Registry W St) (ops : list (RegistryOp W)) : Registry :=
  foldl runOp r ops.

(** The routes the plugins contribute over a sequence of calls: those of
    every [Register] that succeeds, in the order of the calls. *)
Fixpoint contributedBy (r : @Registry W St) (ops : list (RegistryOp W))
  : list Route :=
  match ops with
  | [] => []
  | op :: ops' =>
      match op with
      | OpRegister p =>
          match (Register r p).2 with
          | None => contributedRoutes p
          | Some _ => []
          end
      | OpSetRouter _ => []
      end ++ contributedBy (runOp r op) ops'
  end.

(** The registry after a [Register] that succeeds. *)
Definition registered (r : @Registry W St) (p : @Plugin W) : Registry :=
  let id := p_ID p in
  let r1 :=
    mkRegistry (<[id := p]> (plugins r))
      match p_Service p with
      | Some service => <[id := service]> (services r)
      | None => services r
      end
      match p_Hooks p with
      | Some handlers => registerHooks (hooks r) handlers
      | None => hooks r
      end
      (router r) (routes r) (initialized r) (started r)
      (RegisterSchema (SetConfig (configManager r) id (p_DefaultConfig p)).1 id
         (GenerateSchemaFromStruct (p_Config p)))
      (bound r) in
  foldl registerRoute r1 (contributedRoutes p).
End Ops.

(** A binding is the binding of a route on some router. *)
Definition bindsRoute (b : Binding) (route : Route) : Prop :=
  ∃ ref, b = bindingOf ref route.

(** Plugin B, which depends on a plugin A that is never registered. *)
Definition orphanPlugin : @Plugin unit := basePlugin "B" ["A"].

(** Where the routes contributed so far are: all in the queue while the
    registry has no router, and all bound, one binding for each in the same
    order, once it has one. *)
Definition routesPlaced {W St : Type} (r : @Registry W St) (contributed : list Route)
  : Prop :=
  match router r with
  | None => bound r = [] ∧ routes r = contributed
  | Some _ => routes r = [] ∧ Forall2 bindsRoute (bound r) contributed
  end.

(** A plugin with the two routes GET /hello and GET /world, and an admin
    plugin with one. *)
Definition helloHandler : Handler := λ req, mkResponse 200 "hello".

Definition routablePlugin : @Plugin unit :=
  mkPlugin "com.example.hello" [] (λ w, (w, None)) (λ w, (w, None)) (λ w, (w, None))
    [] (AMap ∅) None None
    (Some [mkRoute "GET" "/hello" helloHandler []; mkRoute "GET" "/world" helloHandler []])
    None.

Definition routeOps : list (RegistryOp unit) :=
  [OpRegister routablePlugin; OpSetRouter (Some 7); OpSetRouter (Some 7)].

(** The same plugin, registered before a [SetRouter(nil)] that a
    [SetRouter] with a router follows. *)
Definition nilRouterOps : list (RegistryOp unit) :=
  [OpRegister routablePlugin; OpSetRouter None; OpSetRouter (Some 7)].

(** No route is bound twice: the bindings made are, in order, bindings of
    routes taken among the contributed ones, each taken once, and the
    queued routes are contributed routes that come after them; a registry
    with a router has nothing queued. *)
Definition boundAtMostOnce {W St : Type} (r : @Registry W St)
  (contributed : list Route) : Prop :=
  ∃ routed,
    sublist (routed ++ routes r) contributed ∧
    Forall2 bindsRoute (bound r) routed ∧
    (is_Some (router r) → routes r = []).

(** ** Statements about the configuration manager *)

(** Two states of a storage hold the same documents: every Load returns
    the same from both. *)
Definition sameStored {St : Type} {store : ConfigStorage St} (s s' : St) : Prop :=
  ∀ id, (Load s id).2 = (Load s' id).2.

(** The field a validation error names. *)
Definition fieldOf (err : Err) : option string :=
  match err with
  | EFieldRequired name => Some name
  | EField name _ => Some name
  | _ => None
  end.

(** A schema with the required field "port", a number from 1 to 65535. *)
Definition portSchema : ConfigSchema :=
  mkConfigSchema
    [mkConfigField "port" "number" "Port" "" ANil true []
       (Some (mkValidation (Some 1%float) (Some 65535%float) None None ""))].

Definition portConfig (port : Z) : Any := AMap {["port" := AInt port]}.

(** A manager on the memory storage with the port schema registered for
    the plugin "com.example.web" and the port 8080 set. *)
Definition portManager : ConfigManager MemoryConfigStorage :=
  let cm := NewConfigManagerWithStorage NewMemoryConfigStorage in
  let cm := RegisterSchema cm "com.example.web" portSchema in
  (SetConfig (json := refusingJSON) cm "com.example.web" (portConfig 8080)).1.

(** The text encoding/json gives for a configuration that holds a port,
    with the indentation of [Save]; the port is given in digits. *)
Definition portDocument (digits : string) : string :=
  let quote := String (ascii_of_N 34) EmptyString in
  let newline := String (ascii_of_N 10) EmptyString in
  "{" +:+ newline +:+ "  " +:+ quote +:+ "port" +:+ quote +:+ ": " +:+ digits
  +:+ newline +:+ "}".

(** A codec that knows two documents, the port 8080 and the port 9090, and
    refuses every other text, as encoding/json refuses a text that is cut
    short. A number it decodes is a float64. *)
Definition portJSON : EncodingJSON := {|
  json_Marshal := λ _, inl (EExternal "json: unsupported");
  json_MarshalIndent := λ v _ _,
    match v with
    | AMap m =>
        match m !! "port" with
        | Some (AInt 8080) => inr (portDocument "8080")
        | Some (AInt 9090) => inr (portDocument "9090")
        | _ => inl (EExternal "json: unsupported")
        end
    | _ => inl (EExternal "json: unsupported")
    end;
  json_Unmarshal := λ data,
    if String.eqb data (portDocument "8080")
    then inr {["port" := AFloat 8080%float]}
    else if String.eqb data (portDocument "9090")
    then inr {["port" := AFloat 9090%float]}
    else inl (EExternal "unexpected end of JSON input")
|}.

(** A manager started on the file storage, with the port schema registered
    for the plugin "com.example.web". The file of the plugin holds the
    port 8080, nothing is cached yet, and the disk is full: a write to the
    file stops after nine bytes. *)
Definition webFile : string := "configs/com.example.web.json".

Definition fullDiskManager : ConfigManager JSONFileConfigStorage :=
  RegisterSchema
    (NewConfigManagerWithStorage
       (mkJSONFileConfigStorage "configs"
          (mkFS {[webFile := portDocument "8080"]}
             (λ path, String.eqb path webFile)
             (λ path, if String.eqb path webFile then Some 9 else None)
             [])))
    "com.example.web" portSchema.

(** A registry on the file storage, and a plugin whose id holds a path
    separator. *)
Definition fileRegistry : @Registry unit JSONFileConfigStorage :=
  NewRegistry None
    (mkJSONFileConfigStorage "configs" (mkFS ∅ (λ _, false) (λ _, None) [])).

Definition slashPlugin : @Plugin unit :=
  mkPlugin "com/example" [] (λ w, (w, None)) (λ w, (w, None)) (λ w, (w, None))
    [] (AMap {["greeting" := AString "hello"]}) None None None None.

Definition greeterPlugin : @Plugin unit :=
  mkPlugin "com.example.greeter" [] (λ w, (w, None)) (λ w, (w, None))
    (λ w, (w, None))
    [] (AMap {["greeting" := AString "hello"]}) None None None None.

(** The file storage over the stand-ins. *)
Definition fileStore : ConfigStorage JSONFileConfigStorage :=
  JSONFileConfigStorage_storage (json := refusingJSON) (fp := plainJoin).

(** ** Statements about the lifecycle *)

(** The registries that successful [Register] calls lead to, from a new
    one. *)
Inductive Reachable {json : EncodingJSON} {W St : Type} {store : ConfigStorage St}
  : @Registry W St → Prop :=
| Reachable_new router st : Reachable (NewRegistry router st)
| Reachable_register r p r' :
    Reachable r → Register r p = (r', None) → Reachable r'.

(** In a list of calls, every call of the method of [phase] on a plugin P
    comes after a call of that method, returned without error, on each
    plugin that P depends on. *)
Definition depsBefore {W : Type} (G : gmap string (@Plugin W)) (phase : Phase)
  (calls : list Call) : Prop :=
  ∀ before c after P Q,
    calls = before ++ c :: after →
    call_phase c = phase →
    G !! call_id c = Some P →
    Q ∈ p_Dependencies P →
    mkCall phase Q None ∈ before.

(** The plugins of a registry are ranked when each is stored under its id
    and depends only on plugins of a smaller rank. *)
Definition ranked {W : Type} (G : gmap string (@Plugin W)) (rank : string → nat)
  : Prop :=
  ∀ id p,
    G !! id = Some p →
    p_ID p = id ∧ rank id < size G ∧
    ∀ d, d ∈ p_Dependencies p → ∃ q, G !! d = Some q ∧ rank d < rank id.

(** [initializePlugin] and [startPlugin] are one traversal, over the table
    of flags they read and set, the method they call and the error they
    wrap a failure in. *)
Section Advance.
Context {W St : Type}.
Variables (flag : @Registry W St → gmap string bool)
          (mark : @Registry W St → string → @Registry W St)
          (method : @Plugin W → W → W * option Err)
          (phase : Phase)
          (wrap : string → Err → Err).

Fixpoint advancePlugin (fuel : nat) (s : @Run W St) (p : @Plugin W)
  : option (Run * option Err) :=
  match fuel with
  | O => None
  | S fuel =>
      let id := p_ID p in
      if default false (flag (run_reg s) !! id) then Some (s, None)
      else
        match
          each (λ s depID,
                  match plugins (run_reg s) !! depID with
                  | Some dep => advancePlugin fuel s dep
                  | None => Some (s, None)
                  end)
               s (p_Dependencies p)
        with
        | None => None
        | Some (s, Some err) => Some (s, Some err)
        | Some (s, None) =>
            match method p (run_world s) with
            | (w, Some err) =>
                Some (mkRun (run_reg s) w
                        (run_calls s ++ [mkCall phase id (Some err)]),
                      Some (wrap id err))
            | (w, None) =>
                Some (mkRun (mark (run_reg s) id) w
                        (run_calls s ++ [mkCall phase id None]),
                      None)
            end
        end
  end.
End Advance.

(** What holds of a run while no method has failed, for a traversal over
    the flags [flag] whose other table of flags is [other]. *)
Record RunInv {W St : Type} (G : gmap string (@Plugin W))
  (flag other : @Registry W St → gmap string bool) (other0 : gmap string bool)
  (phase : Phase) (s : @Run W St) : Prop := mkRunInv {
  inv_plugins : plugins (run_reg s) = G;
  inv_other : other (run_reg s) = other0;
  inv_flag : ∀ id, default false (flag (run_reg s) !! id) = true
                   ↔ mkCall phase id None ∈ run_calls s;
  inv_ok : ∀ c, c ∈ run_calls s → c = mkCall phase (call_id c) None;
  inv_nodup : NoDup (call_id <$> run_calls s);
  inv_deps : depsBefore G phase (run_calls s)
}.

(** What holds of a run when a traversal has ended, with or without a
    failure. *)
Record RunEnd {W St : Type} (G : gmap string (@Plugin W))
  (other : @Registry W St → gmap string bool) (other0 : gmap string bool)
  (phase : Phase) (s : @Run W St) : Prop := mkRunEnd {
  end_plugins : plugins (run_reg s) = G;
  end_other : other (run_reg s) = other0;
  end_phase : ∀ c, c ∈ run_calls s → call_phase c = phase;
  end_nodup : NoDup (call_id <$> run_calls s);
  end_deps : depsBefore G phase (run_calls s)
}.

(** The run [s'] continues [s] with calls on plugins of rank below [b]. *)
Definition extends {W St : Type} (rank : string → nat) (b : nat)
  (s s' : @Run W St) : Prop :=
  ∃ ext, run_calls s' = run_calls s ++ ext ∧
         ∀ c, c ∈ ext → rank (call_id c) < b.

(** How a traversal that has returned relates the run before it to the
    run after it: the calls it added all returned without error, but for
    the last one when the traversal returned an error, which is then that
    of the last call wrapped; a plugin is flagged after it exactly when it
    was flagged before or one of the added calls on it succeeded; and the
    plugins and the other table of flags are untouched. *)
Definition runOutcome {W St : Type} (flag other : @Registry W St → gmap string bool)
  (phase : Phase) (wrap : string → Err → Err)
  (s s' : @Run W St) (res : option Err) : Prop :=
  ∃ ext,
    run_calls s' = run_calls s ++ ext ∧
    match res with
    | None => Forall (λ c, c = mkCall phase (call_id c) None) ext
    | Some e =>
        ∃ ext0 id err,
          ext = ext0 ++ [mkCall phase id (Some err)] ∧ e = wrap id err ∧
          Forall (λ c, c = mkCall phase (call_id c) None) ext0
    end ∧
    (∀ id, default false (flag (run_reg s') !! id) = true ↔
           default false (flag (run_reg s) !! id) = true ∨
           mkCall phase id None ∈ ext) ∧
    plugins (run_reg s') = plugins (run_reg s) ∧
    other (run_reg s') = other (run_reg s).

(** Plugin A, and plugin B that depends on it. *)
Definition chainVisit : list (@Plugin unit) :=
  [basePlugin "B" ["A"]; basePlugin "A" []].

Definition chainRegistry : @Registry unit MemoryConfigStorage :=
  registerAll (json := refusingJSON) emptyRegistry
    [basePlugin "A" []; basePlugin "B" ["A"]].

(** ** Data for the statements beyond the claims *)

(** A codec that knows the empty document only. *)
Definition emptyDocJSON : EncodingJSON := {|
  json_Marshal := λ v,
    match v with
    | AMap m => match map_to_list m with
                | [] => inr "{}"
                | _ => inl (EExternal "json: unsupported")
                end
    | _ => inl (EExternal "json: unsupported")
    end;
  json_MarshalIndent := λ v _ _,
    match v with
    | AMap m => match map_to_list m with
                | [] => inr "{}"
                | _ => inl (EExternal "json: unsupported")
                end
    | _ => inl (EExternal "json: unsupported")
    end;
  json_Unmarshal := λ data,
    if String.eqb data "{}" then inr ∅
    else inl (EExternal "json: unsupported")
|}.

(** A file storage on the directory "configs", with no file yet. *)
Definition emptyFileStorage : JSONFileConfigStorage :=
  mkJSONFileConfigStorage "configs" (mkFS ∅ (λ _, false) (λ _, None) []).

(** A manager started on a memory storage that already holds the port 8080
    for the plugin "com.example.web": nothing is cached yet. *)
Definition restartedManager : ConfigManager MemoryConfigStorage :=
  NewConfigManagerWithStorage
    (Memory_Save NewMemoryConfigStorage "com.example.web"
       {["port" := AInt 8080]}).1.

(** A value is one of the options of a field: a string equal to the value
    of one of them. *)
Definition isOption (options : list Option) (v : Any) : Prop :=
  ∃ s opt, v = AString s ∧ opt ∈ options ∧ opt_Value opt = s.

(** A field of one choice and a field of several, over the roles admin,
    user and guest. *)
Definition roleOptions : list Option :=
  [mkOption "admin" "Admin"; mkOption "user" "User"; mkOption "guest" "Guest"].

Definition roleField : ConfigField :=
  mkConfigField "role" "select" "" "" ANil false roleOptions None.

Definition rolesField : ConfigField :=
  mkConfigField "roles" "multiselect" "" "" ANil false roleOptions None.

(** The names of the types [validateField] knows. *)
Definition knownTypes : list string :=
  ["string"; "number"; "boolean"; "select"; "multiselect"].

(** A number field with both bounds. *)
Definition numberField (min max : float) : ConfigField :=
  mkConfigField "n" "number" "" "" ANil false []
    (Some (mkValidation (Some min) (Some max) None None "")).

(** The fields of the struct
    [{ Host string `json:"host" required:"true"`; secret string;
       Port int `json:"port" default:"8080"`; Tags []string `json:"tags"`;
       Skip bool `json:"-"` }]. *)
Definition sampleStruct : list StructField :=
  [mkStructField "Host" true {["json" := "host"; "required" := "true"]} KString;
   mkStructField "secret" false ∅ KString;
   mkStructField "Port" true {["json" := "port"; "default" := "8080"]} KInt;
   mkStructField "Tags" true {["json" := "tags"]} KSlice;
   mkStructField "Skip" true {["json" := "-"]} KBool].

(** The struct fields [GenerateSchemaFromStruct] makes a schema field of. *)
Definition isSchemaField (field : StructField) : bool :=
  sf_IsExported field && negb (String.eqb (Tag_Get field "json") "-").

(** The plugins a sequence of [Register] calls accepts, in the order of
    the calls. *)
Fixpoint accepted {json : EncodingJSON} {W St : Type} {store : ConfigStorage St}
  (r : @Registry W St) (ps : list Plugin) : list Plugin :=
  match ps with
  | [] => []
  | p :: ps' =>
      match (Register r p).2 with
      | None => p :: accepted (Register r p).1 ps'
      | Some _ => accepted (Register r p).1 ps'
      end
  end.

(** A plugin with a service, a route with two middlewares and an admin
    route. *)
Definition tagMiddleware (tag : string) : Middleware :=
  λ next req,
    mkResponse (res_Status (next req)) (tag +:+ res_Body (next req)).

Definition servicePlugin : @Plugin unit :=
  mkPlugin "com.example.mail" [] (λ w, (w, None)) (λ w, (w, None)) (λ w, (w, None))
    [] (AMap ∅) (Some (AString "mailer")) None
    (Some [mkRoute "GET" "/mail" helloHandler [tagMiddleware "a:"; tagMiddleware "b:"]])
    (Some [mkRoute "TRACE" "/mail" helloHandler []]).

Definition routedRegistry : @Registry unit MemoryConfigStorage :=
  NewRegistry (Some 7) NewMemoryConfigStorage.

(** A plugin whose Init returns an error. *)
Definition brokenPlugin (id : string) (deps : list string) : @Plugin unit :=
  mkPlugin id deps (λ w, (w, Some (EExternal "no database")))
    (λ w, (w, None)) (λ w, (w, None))
    [] (AMap ∅) None None None None.

(** Plugin A, plugin B whose Init fails, and plugin C that depends on B. *)
Definition brokenVisit : list (@Plugin unit) :=
  [basePlugin "A" []; basePlugin "C" ["B"]; brokenPlugin "B" []].

Definition brokenRegistry : @Registry unit MemoryConfigStorage :=
  registerAll (json := refusingJSON) emptyRegistry
    [basePlugin "A" []; brokenPlugin "B" []; basePlugin "C" ["B"]].

(** A plugin state that refuses every configuration: the decoder keeps the
    text it is given, and [ValidateConfig] fails. *)
Definition keepText : @Plugin string → string → string → string * option Err :=
  λ _ data _, (data, None).

Definition rejectConfig : @Plugin string → string → option Err :=
  λ _ _, Some (EExternal "port out of range").

(** A provider named "basic" that lets nobody in. *)
Definition closedProvider : AuthProvider := {|
  ap_Name := "basic";
  ap_IsAuthenticated := λ _, false;
  ap_RequireAuth := λ _ _, mkResponse 303 "";
  ap_RequireRole := λ _ _ _, mkResponse 403 "Forbidden"
|}.

(** * Proofs *)

(** ** Hooks *)

Section HookFacts.
Context {W : Type} {json : EncodingJSON} {St : Type} {store : ConfigStorage St}.
Implicit Types (r : @Registry W St) (p : @Plugin W).
Implicit Types (hs pre post : list (@HookHandler W)) (w wi : W).

Lemma runHandlers_pipeline hs w v w' v' :
  Pipeline hs w v w' v' → runHandlers hs w v = (w', (v', None)).
Proof.
  induction 1 as [|h hs w v w1 v1 w2 v2 Hh _ IH]; simpl; [done|].
  by rewrite Hh.
Qed.

Lemma runHandlers_failure pre h post w v wi vi w' v' e :
  Pipeline pre w v wi vi →
  h wi vi = (w', (v', Some e)) →
  runHandlers (pre ++ h :: post) w v = (w', (ANil, Some e)).
Proof.
  induction 1 as [|h0 hs w v w1 v1 w2 v2 Hh _ IH]; simpl; intros Hf.
  - by rewrite Hf.
  - rewrite Hh. by apply IH.
Qed.

(** A run of handlers either goes through all of them or stops at the
    first that fails. *)
Lemma runHandlers_cases hs w v :
  (∃ w' v', Pipeline hs w v w' v') ∨
  (∃ pre h post wi vi w' v' e,
      hs = pre ++ h :: post ∧ Pipeline pre w v wi vi ∧
      h wi vi = (w', (v', Some e))).
Proof.
  revert w v. induction hs as [|h hs IH]; intros w v.
  - left. eexists _, _. constructor.
  - destruct (h w v) as [w1 [v1 [e|]]] eqn:Hh.
    + right. exists [], h, hs, w, v, w1, v1, e. split; [done|]. split; [constructor|done].
    + destruct (IH w1 v1) as [(w' & v' & HP)|(pre & h' & post & wi & vi & w' & v' & e & -> & HP & Hf)].
      * left. exists w', v'. by econstructor.
      * right. exists (h :: pre), h', post, wi, vi, w', v', e.
        split; [done|]. split; [by econstructor|done].
Qed.

Lemma registerHooks_lookup (table : gmap string (list (@HookHandler W)))
  (handlers : gmap string (@HookHandler W)) hookName :
  default [] (registerHooks table handlers !! hookName) =
  default [] (table !! hookName) ++
    match handlers !! hookName with Some h => [h] | None => [] end.
Proof.
  unfold registerHooks.
  induction handlers as [|k h m Hk Hfold IH] using map_first_key_ind.
  - rewrite map_fold_empty, lookup_empty. by rewrite app_nil_r.
  - rewrite map_fold_insert_first_key by done.
    destruct (decide (k = hookName)) as [->|Hne].
    + rewrite !lookup_insert_eq. simpl.
      rewrite IH, Hk. by rewrite app_nil_r.
    + rewrite !lookup_insert_ne by done. apply IH.
Qed.

Lemma foldl_registerRoute_hooks r (l : list Route) :
  hooks (foldl registerRoute r l) = hooks r.
Proof.
  revert r. induction l as [|x l IH]; intros r; simpl; [done|].
  rewrite IH. unfold registerRoute. by destruct (router r).
Qed.

Lemma Register_hooks r p r' hookName :
  Register r p = (r', None) →
  handlersOf r' hookName = handlersOf r hookName ++ handlerOf p hookName.
Proof.
  unfold Register, handlersOf, handlerOf.
  destruct (exists_in _ _); [done|].
  destruct (List.find _ _); [done|].
  intros [= <-]. rewrite !foldl_registerRoute_hooks. simpl.
  destruct (p_Hooks p) as [handlers|].
  - apply registerHooks_lookup.
  - by rewrite app_nil_r.
Qed.
End HookFacts.

Section HookClaim.
Context {W : Type} {json : EncodingJSON} {St : Type} {store : ConfigStorage St}.

(** C1, as amended. For every hook name and starting value, [ExecuteHook]
    applies the handlers registered under the name one after the other,
    each on the output of the one before, in the order of registration
    ([Register] puts the handler of a plugin at the end of the list of its
    hook name). When all succeed it returns the last output and no error.
    When one fails the run stops at that handler (the handlers after it
    are not called), and the call returns that error with the nil value:
    neither the last output that succeeded nor the original input. One of
    the two cases always applies. *)
Theorem ExecuteHook_chain (r : @Registry W St) (w : W) (hookName : string)
  (data : Any) :
  (∀ w' v',
      Pipeline (handlersOf r hookName) w data w' v' →
      ExecuteHook r w hookName data = (w', (v', None))) ∧
  (∀ pre h post wi vi w' v' e,
      handlersOf r hookName = pre ++ h :: post →
      Pipeline pre w data wi vi →
      h wi vi = (w', (v', Some e)) →
      ExecuteHook r w hookName data = (w', (ANil, Some e))) ∧
  ((∃ w' v', Pipeline (handlersOf r hookName) w data w' v') ∨
   (∃ pre h post wi vi w' v' e,
       handlersOf r hookName = pre ++ h :: post ∧
       Pipeline pre w data wi vi ∧ h wi vi = (w', (v', Some e)))) ∧
  (∀ p r',
      Register r p = (r', None) →
      handlersOf r' hookName = handlersOf r hookName ++ handlerOf p hookName).
Proof.
  unfold ExecuteHook. fold (handlersOf r hookName).
  split; [|split; [|split]].
  - intros w' v'. apply runHandlers_pipeline.
  - intros pre h post wi vi w' v' e -> HP Hf.
    by eapply runHandlers_failure.
  - apply runHandlers_cases.
  - intros p r'. apply Register_hooks.
Qed.
End HookClaim.

(** The chain of C1 on two registered handlers, the second of which fails. *)
Lemma ExecuteHook_chain_witness :
  ExecuteHook hookRegistry () "before_save" (AString "x")
  = ((), (ANil, Some (EExternal "boom"))).
Proof.
  refine (proj1 (proj2 (ExecuteHook_chain (json := refusingJSON)
                          hookRegistry () "before_save" (AString "x")))
            [appendHandler "|A"] failingHandler [] () (AString "x|A") ()
            (AString "x|A") (EExternal "boom") _ _ _).
  - vm_compute. reflexivity.
  - eapply Pipeline_cons; [|apply Pipeline_nil]. reflexivity.
  - reflexivity.
Defined.

(** C1 as stated fails. With handlers A (appends "|A") and B (fails)
    registered in that order, the last value that succeeded is "x|A", and
    the call returns nil with the error; when the failing handler is the
    first one, the call returns nil and not the input "x". *)
Lemma ExecuteHook_drops_last_value :
  handlersOf hookRegistry "before_save" = [appendHandler "|A"; failingHandler] ∧
  ExecuteHook hookRegistry () "before_save" (AString "x")
    ≠ ((), (AString "x|A", Some (EExternal "boom"))) ∧
  handlersOf failFirstRegistry "before_save" = [failingHandler; appendHandler "|A"] ∧
  ExecuteHook failFirstRegistry () "before_save" (AString "x")
    ≠ ((), (AString "x", Some (EExternal "boom"))).
Proof.
  split; [vm_compute; reflexivity|].
  split; [vm_compute; discriminate|].
  split; [vm_compute; reflexivity|].
  vm_compute; discriminate.
Qed.

(** ** The file storage checks the plugin id in Save only *)

Section FileStorageFacts.
Context {json : EncodingJSON} {fp : PathFilepath}.

Lemma validatePluginID_spec pluginID :
  validatePluginID pluginID ≠ None ↔
  pluginID = "" ∨ strings_Contains pluginID ".." = true
  ∨ strings_Contains pluginID "/" = true
  ∨ strings_Contains pluginID "\" = true.
Proof.
  unfold validatePluginID.
  destruct (String.eqb_spec pluginID "") as [->|Hne].
  - split; [by left|done].
  - destruct (strings_Contains pluginID "..") eqn:E1; simpl;
      [split; [auto|done]|].
    destruct (strings_Contains pluginID "/") eqn:E2; simpl;
      [split; [auto|done]|].
    destruct (strings_Contains pluginID "\") eqn:E3; simpl;
      [split; [auto|done]|].
    split; [done|]. by intros [?|[?|[?|?]]].
Qed.

(** Save refuses an invalid id before it marshals or writes anything. *)
Lemma JSONFile_Save_invalid_id s pluginID config err :
  validatePluginID pluginID = Some err →
  JSONFile_Save s pluginID config = (s, Some err).
Proof. unfold JSONFile_Save. by intros ->. Qed.

(** Load reads the file of any id, and Delete removes it. *)
Lemma JSONFile_Load_reads s pluginID :
  fs_log (files (JSONFile_Load s pluginID).1)
  = fs_log (files s) ++ [OpReadFile (configPath s pluginID)].
Proof.
  unfold JSONFile_Load, readFile. simpl.
  destruct (fs_files (files s) !! _); [destruct (json_Unmarshal _)|]; done.
Qed.

Lemma JSONFile_Delete_removes s pluginID :
  fs_log (files (JSONFile_Delete s pluginID).1)
  = fs_log (files s) ++ [OpRemove (configPath s pluginID)].
Proof.
  unfold JSONFile_Delete, removeFile. simpl.
  by destruct (fs_denied (files s) _).
Qed.
End FileStorageFacts.

(** C2, where the code departs from it. The id "../evil" holds ".." and "/"
    and [validatePluginID] refuses it; Save returns that error and leaves
    the files alone. Load and Delete never call [validatePluginID]: Load
    reads the file the id points at, outside the base directory, and Delete
    removes that file and returns no error. *)
Theorem JSONFile_Load_Delete_unvalidated :
  validatePluginID "../evil" = Some (EInvalidPluginID "../evil") ∧
  JSONFile_Save (json := refusingJSON) (fp := plainJoin) fileStorage "../evil" ∅
    = (fileStorage, Some (EInvalidPluginID "../evil")) ∧
  fs_log (files (JSONFile_Load (json := refusingJSON) (fp := plainJoin)
                   fileStorage "../evil").1)
    = [OpReadFile outsideFile] ∧
  (JSONFile_Delete (fp := plainJoin) fileStorage "../evil").2 = None ∧
  fs_log (files (JSONFile_Delete (fp := plainJoin) fileStorage "../evil").1)
    = [OpRemove outsideFile] ∧
  fs_files (files fileStorage) !! outsideFile = Some "{}" ∧
  fs_files (files (JSONFile_Delete (fp := plainJoin) fileStorage "../evil").1)
    !! outsideFile = None.
Proof. repeat split; vm_compute; reflexivity. Qed.

(** ** String lengths are counted in bytes *)

Lemma validateField_string_cases (str : string) (minLen maxLen : option Z) :
  validateField (AString str) (stringField minLen maxLen) =
  match minLen with
  | Some m => if (len str <? m)%Z then Some (EMinLength m)
              else match maxLen with
                   | Some n => if (len str >? n)%Z then Some (EMaxLength n) else None
                   | None => None
                   end
  | None => match maxLen with
            | Some n => if (len str >? n)%Z then Some (EMaxLength n) else None
            | None => None
            end
  end.
Proof.
  unfold validateField, stringField, andThen. simpl.
  destruct minLen as [m|]; [|done].
  by destruct (len str <? m)%Z.
Qed.

Lemma codePoints_ascii (str : string) :
  (∀ c, In c (list_ascii_of_string str) → isContinuation c = false) →
  codePoints str = len str.
Proof.
  unfold len. induction str as [|c str IH]; intros Hall; [done|].
  cbn [codePoints String.length].
  rewrite (Hall c) by (simpl; auto).
  rewrite IH by (intros c' Hc'; apply Hall; simpl; auto). lia.
Qed.

(** C9, as amended. A string field with a minimum and/or a maximum length
    checks the length of the value counted in bytes ([len]), bounds
    included: the value passes when its number of bytes is within the
    bounds that are present, fails with the minimum when it is below it,
    and with the maximum when it is above it. The field of the statement is
    any field of type "string" with a validation record. For a text whose
    bytes all begin a code point (ASCII for one) the two counts agree. *)
Theorem validateField_string_byte_length (field : ConfigField) (v : Validation)
  (str : string) :
  cf_Type field = "string" →
  cf_Validation field = Some v →
  (validateField (AString str) field = None ↔
     (∀ m, MinLen v = Some m → (m ≤ len str)%Z) ∧
     (∀ n, MaxLen v = Some n → (len str ≤ n)%Z)) ∧
  (∀ m, MinLen v = Some m → (len str < m)%Z →
        validateField (AString str) field = Some (EMinLength m)) ∧
  (∀ n, MaxLen v = Some n → (n < len str)%Z →
        (∀ m, MinLen v = Some m → (m ≤ len str)%Z) →
        validateField (AString str) field = Some (EMaxLength n)) ∧
  ((∀ c, In c (list_ascii_of_string str) → isContinuation c = false) →
   codePoints str = len str).
Proof.
  intros Hty Hv. unfold validateField, andThen. rewrite Hty, Hv. simpl.
  rewrite ?Z.gtb_ltb.
  split; [|split; [|split]].
  - destruct (MinLen v) as [m|], (MaxLen v) as [n|];
      repeat case_match; split; try done;
      try (intros _; split; intros k [= <-]; lia);
      try (intros [Hmin Hmax]; try specialize (Hmin _ eq_refl);
           try specialize (Hmax _ eq_refl); lia).

  - intros m -> Hlt. by rewrite (proj2 (Z.ltb_lt _ _) Hlt).
  - intros n -> Hlt Hmin. rewrite Z.gtb_ltb, (proj2 (Z.ltb_lt _ _) Hlt).
    destruct (MinLen v) as [m|]; [|done].
    specialize (Hmin _ eq_refl). by rewrite (proj2 (Z.ltb_ge _ _) Hmin).
  - apply codePoints_ascii.
Qed.

(** The byte bounds of C9 on a two-byte text and the bounds 1 and 4. *)
Lemma validateField_string_byte_length_witness :
  validateField (AString eAcute) (stringField (Some 1%Z) (Some 4%Z)) = None.
Proof.
  apply (proj1 (validateField_string_byte_length
                  (stringField (Some 1%Z) (Some 4%Z))
                  (mkValidation None None (Some 1%Z) (Some 4%Z) "")
                  eAcute eq_refl eq_refl)).
  split; intros k [= <-]; vm_compute; discriminate.
Defined.

(** C9 as stated fails. The text U+00E9 is one code point in two bytes.
    With a maximum length of 1 its count of code points is within the bound
    and the field is refused; with a minimum length of 2 its count of code
    points is below the bound and the field is accepted. *)
Lemma validateField_string_not_code_points :
  codePoints eAcute = 1%Z ∧ len eAcute = 2%Z ∧
  validateField (AString eAcute) (stringField None (Some 1%Z))
    = Some (EMaxLength 1) ∧
  validateField (AString eAcute) (stringField (Some 2%Z) None) = None.
Proof. repeat split; vm_compute; reflexivity. Qed.

(** ** The auth plugin without a matching provider *)

(** C10. When the name of the active provider matches no registered
    provider, [GetActiveProvider] returns the [NoAuthProvider]; that
    provider reports every request as authenticated, and its
    [RequireAuth] and [RequireRole] give back the handler they are given;
    so the middlewares built by [Middleware] and [RequireAdmin] let every
    request through to the handler, unchanged. *)
Theorem GetActiveProvider_fallback (p : Auth.Plugin) :
  Auth.providers p !! Auth.active p = None →
  Auth.GetActiveProvider p = NoAuthProvider ∧
  (∀ req, ap_IsAuthenticated (Auth.GetActiveProvider p) req = true) ∧
  (∀ next, ap_RequireAuth (Auth.GetActiveProvider p) next = next) ∧
  (∀ roles next, ap_RequireRole (Auth.GetActiveProvider p) roles next = next) ∧
  (∀ next, Auth.Middleware p next = next) ∧
  (∀ next, Auth.RequireAdmin p next = next).
Proof.
  intros Hnone. unfold Auth.Middleware, Auth.RequireAdmin, Auth.GetActiveProvider.
  rewrite Hnone. done.
Qed.

(** C10 on the plugin as [NewPlugin] builds it, before [Init] has run. *)
Lemma GetActiveProvider_fallback_witness :
  Auth.GetActiveProvider Auth.NewPlugin = NoAuthProvider ∧
  (∀ next, Auth.Middleware Auth.NewPlugin next = next).
Proof.
  pose proof (GetActiveProvider_fallback Auth.NewPlugin eq_refl) as H.
  split; [apply H|]. apply H.
Defined.

(** ** Stop *)

Lemma filter_ext_elem {A : Type} (P Q : A → Prop)
  `{!∀ x, Decision (P x)} `{!∀ x, Decision (Q x)} (l : list A) :
  (∀ x, x ∈ l → P x ↔ Q x) → filter P l = filter Q l.
Proof.
  induction l as [|x l IH]; intros Hext; [done|].
  rewrite !filter_cons.
  rewrite IH by (intros y Hy; apply Hext; by right).
  destruct (decide (P x)) as [HP|HP], (decide (Q x)) as [HQ|HQ]; try done.
  - destruct HQ. apply Hext; [by left|done].
  - destruct HP. apply Hext; [by left|done].
Qed.

Section StopFacts.
Context {W St : Type}.
Implicit Types (s : @Run W St) (visit : list (@Plugin W)).

Lemma IsEnabled_markStarted (r : @Registry W St) id b id' :
  IsEnabled (markStarted r id b) id'
  = if decide (id = id') then b else IsEnabled r id'.
Proof.
  unfold IsEnabled, markStarted. simpl.
  rewrite lookup_insert. by case_decide.
Qed.

Lemma stopPlugins_spec visit s errs :
  NoDup (p_ID <$> visit) →
  ∃ calls,
    run_calls (stopPlugins visit s errs).1 = run_calls s ++ calls ∧
    call_id <$> calls
      = p_ID <$> filter (λ p, IsEnabled (run_reg s) (p_ID p) = true) visit ∧
    Forall (λ c, call_phase c = PStop) calls ∧
    (stopPlugins visit s errs).2 = errs ++ omap stopError calls ∧
    (∀ id, IsEnabled (run_reg (stopPlugins visit s errs).1) id
           = IsEnabled (run_reg s) id && bool_decide (id ∉ p_ID <$> visit)) ∧
    plugins (run_reg (stopPlugins visit s errs).1) = plugins (run_reg s).
Proof.
  revert s errs. induction visit as [|p visit IH]; intros s errs Hnd.
  - exists []. cbn [stopPlugins fst snd]. rewrite !app_nil_r.
    split_and!; try done.
    intros id. rewrite bool_decide_eq_true_2 by set_solver.
    by rewrite andb_true_r.
  - rewrite fmap_cons in Hnd. apply NoDup_cons in Hnd as [Hnotin Hnd].
    assert (Hfilter : ∀ r' : @Registry W St,
      (∀ id, id ≠ p_ID p → IsEnabled r' id = IsEnabled (run_reg s) id) →
      filter (λ q, IsEnabled r' (p_ID q) = true) visit
      = filter (λ q, IsEnabled (run_reg s) (p_ID q) = true) visit).
    { intros r' Hr'. apply filter_ext_elem. intros q Hq.
      rewrite Hr'; [done|]. intros Heq. apply Hnotin.
      rewrite <- Heq. by apply list_elem_of_fmap_2. }
    assert (Hstep : ∀ w cerr,
      ∃ calls,
        run_calls (stopPlugins visit
          (mkRun (markStarted (run_reg s) (p_ID p) false) w
             (run_calls s ++ [mkCall PStop (p_ID p) cerr]))
          (errs ++ option_list (stopError (mkCall PStop (p_ID p) cerr)))).1
        = run_calls s ++ calls ∧
        call_id <$> calls
        = p_ID p :: (p_ID <$> filter (λ q, IsEnabled (run_reg s) (p_ID q) = true) visit) ∧
        Forall (λ c, call_phase c = PStop) calls ∧
        (stopPlugins visit
          (mkRun (markStarted (run_reg s) (p_ID p) false) w
             (run_calls s ++ [mkCall PStop (p_ID p) cerr]))
          (errs ++ option_list (stopError (mkCall PStop (p_ID p) cerr)))).2
        = errs ++ omap stopError calls ∧
        (∀ id, IsEnabled (run_reg (stopPlugins visit
          (mkRun (markStarted (run_reg s) (p_ID p) false) w
             (run_calls s ++ [mkCall PStop (p_ID p) cerr]))
          (errs ++ option_list (stopError (mkCall PStop (p_ID p) cerr)))).1) id
           = IsEnabled (run_reg s) id
             && bool_decide (id ∉ p_ID <$> (p :: visit))) ∧
        plugins (run_reg (stopPlugins visit
          (mkRun (markStarted (run_reg s) (p_ID p) false) w
             (run_calls s ++ [mkCall PStop (p_ID p) cerr]))
          (errs ++ option_list (stopError (mkCall PStop (p_ID p) cerr)))).1)
        = plugins (run_reg s)).
    { intros w cerr.
      destruct (IH (mkRun (markStarted (run_reg s) (p_ID p) false) w
                      (run_calls s ++ [mkCall PStop (p_ID p) cerr]))
                   (errs ++ option_list (stopError (mkCall PStop (p_ID p) cerr)))
                   Hnd)
        as (calls & Hc & Hids & Hph & Herr & Hen' & Hpl).
      exists (mkCall PStop (p_ID p) cerr :: calls).
      rewrite Hc, Herr, Hpl. cbn [run_calls run_reg] in *.
      split_and!.
      - by rewrite <- app_assoc.
      - rewrite fmap_cons. cbn [call_id]. f_equal. rewrite Hids. f_equal.
        apply Hfilter. intros id Hid. rewrite IsEnabled_markStarted.
        by rewrite decide_False.
      - by constructor.
      - rewrite <- app_assoc. f_equal.
        generalize (mkCall PStop (p_ID p) cerr). intros c.
        unfold omap at 2; simpl. by destruct (stopError c).
      - intros id. rewrite Hen', IsEnabled_markStarted.
        case_decide as Hid.
        + subst id. rewrite (bool_decide_eq_false_2 (_ ∉ _ <$> (p :: visit)))
            by set_solver.
          by rewrite andb_false_r.
        + f_equal. apply bool_decide_ext. set_solver.
      - done. }
    cbn [stopPlugins]. rewrite filter_cons.
    fold (IsEnabled (run_reg s) (p_ID p)).
    destruct (IsEnabled (run_reg s) (p_ID p)) eqn:Hen.
    + rewrite decide_True by done. rewrite fmap_cons.
      destruct (p_Stop p (run_world s)) as [w [err|]] eqn:Hstop.
      * apply (Hstep w (Some err)).
      * specialize (Hstep w None). cbn [stopError call_err fmap option_fmap
          option_map option_list] in Hstep.
        by rewrite app_nil_r in Hstep.
    + rewrite decide_False by done.
      destruct (IH s errs Hnd) as (calls & Hc & Hids & Hph & Herr & Hen' & Hpl).
      exists calls. split_and!; try done.
      intros id. rewrite Hen'.
      destruct (decide (id = p_ID p)) as [->|Hid].
      * by rewrite Hen.
      * f_equal. apply bool_decide_ext. set_solver.
Qed.

End StopFacts.



(** ** Register *)

Section RegisterFacts.
Context {json : EncodingJSON} {W St : Type} {store : ConfigStorage St}.
Implicit Types (r : @Registry W St) (p : @Plugin W).

Lemma exists_in_true {A : Type} (m : gmap string A) k :
  exists_in m k = true ↔ is_Some (m !! k).
Proof. unfold exists_in. destruct (m !! k); split; by eauto using is_Some_None. Qed.

Lemma exists_in_false {A : Type} (m : gmap string A) k :
  exists_in m k = false ↔ m !! k = None.
Proof. unfold exists_in. by destruct (m !! k). Qed.

(** What the loop over the routes of a plugin does to the registry. *)
Lemma foldl_registerRoute r (l : list Route) :
  foldl registerRoute r l =
  match router r with
  | None =>
      mkRegistry (plugins r) (services r) (hooks r) (router r)
        (routes r ++ l) (initialized r) (started r) (configManager r) (bound r)
  | Some ref =>
      mkRegistry (plugins r) (services r) (hooks r) (router r)
        (routes r) (initialized r) (started r) (configManager r)
        (bound r ++ (bindingOf ref <$> l))
  end.
Proof.
  revert r. induction l as [|route l IH]; intros r.
  - simpl. destruct r as [? ? ? [?|] ? ? ? ? ?]; simpl; by rewrite app_nil_r.
  - simpl. rewrite IH. unfold registerRoute.
    destruct r as [? ? ? [?|] ? ? ? ? ?]; simpl; by rewrite <- app_assoc.
Qed.

Lemma Register_cases r p :
  (is_Some (plugins r !! p_ID p) ∧
   Register r p = (r, Some (EAlreadyRegistered (p_ID p)))) ∨
  (plugins r !! p_ID p = None ∧
   ∃ dep, dep ∈ p_Dependencies p ∧ plugins r !! dep = None ∧
          Register r p = (r, Some (EMissingDependency (p_ID p) dep))) ∨
  (plugins r !! p_ID p = None ∧
   (∀ dep, dep ∈ p_Dependencies p → is_Some (plugins r !! dep)) ∧
   Register r p = (registered r p, None)).
Proof.
  unfold Register.
  destruct (exists_in (plugins r) (p_ID p)) eqn:Hid.
  - left. by apply exists_in_true in Hid.
  - right. apply exists_in_false in Hid.
    destruct (List.find _ _) as [dep|] eqn:Hfind.
    + left. split; [done|]. exists dep.
      apply find_some in Hfind as [Hin Hmiss].
      apply negb_true_iff, exists_in_false in Hmiss.
      by rewrite <- list_elem_of_In in Hin.
    + right. split; [done|]. split.
      * intros dep Hdep. rewrite list_elem_of_In in Hdep.
        pose proof (find_none _ _ Hfind dep Hdep) as Hn.
        by apply negb_false_iff, exists_in_true in Hn.
      * unfold registered, contributedRoutes. by rewrite foldl_app.
Qed.

Lemma Register_failure_unchanged r p r' e :
  Register r p = (r', Some e) → r' = r.
Proof.
  destruct (Register_cases r p) as [[_ H]|[(_ & dep & _ & _ & H)|(_ & _ & H)]];
    rewrite H; by intros [= <-].
Qed.

Lemma registered_plugins r p :
  plugins (registered r p) = <[p_ID p := p]> (plugins r).
Proof.
  unfold registered. rewrite foldl_registerRoute. simpl.
  by destruct (router r).
Qed.

Lemma Register_plugins_mono r p id :
  is_Some (plugins r !! id) → is_Some (plugins (Register r p).1 !! id).
Proof.
  intros Hsome.
  destruct (Register_cases r p) as [[_ H]|[(_ & dep & _ & _ & H)|(_ & _ & H)]];
    rewrite H; simpl; try done.
  rewrite registered_plugins.
  destruct (decide (p_ID p = id)) as [<-|Hne].
  - rewrite lookup_insert_eq. eauto.
  - by rewrite lookup_insert_ne.
Qed.

Lemma registerSeq_cons r p ps :
  registerSeq r (p :: ps)
  = ((registerSeq (Register r p).1 ps).1,
     (Register r p).2 :: (registerSeq (Register r p).1 ps).2).
Proof.
  simpl. destruct (Register r p) as [r1 res]. simpl.
  by destruct (registerSeq r1 ps).
Qed.

(** Once an id is registered, every later call with that id fails. *)
Lemma registerSeq_registered_fails r ps j q :
  is_Some (plugins r !! p_ID q) →
  ps !! j = Some q →
  ∃ e, (registerSeq r ps).2 !! j = Some (Some e).
Proof.
  revert r j. induction ps as [|p ps IH]; intros r j Hreg Hj; [done|].
  rewrite registerSeq_cons. cbn [snd].
  destruct j as [|j]; simpl in Hj.
  - injection Hj as ->. simpl.
    destruct (Register_cases r q) as [[_ H]|[(Hn & _)|(Hn & _)]].
    + rewrite H. eauto.
    + rewrite Hn in Hreg. by destruct Hreg.
    + rewrite Hn in Hreg. by destruct Hreg.
  - simpl. apply IH; [|done]. by apply Register_plugins_mono.
Qed.

Lemma registerSeq_at_most_one r ps i j p q :
  i < j → ps !! i = Some p → ps !! j = Some q → p_ID p = p_ID q →
  ¬ ((registerSeq r ps).2 !! i = Some None ∧
     (registerSeq r ps).2 !! j = Some None).
Proof.
  revert r i j. induction ps as [|p0 ps IH]; intros r i j Hlt Hi Hj Hid; [done|].
  rewrite registerSeq_cons. cbn [snd].
  destruct j as [|j]; [lia|]. destruct i as [|i]; simpl in *.
  - injection Hi as ->. intros [[= Hok] Hj'].
    assert (Hreg : is_Some (plugins (Register r p).1 !! p_ID q)).
    { destruct (Register_cases r p) as [[_ H]|[(_ & dep & _ & _ & H)|(_ & _ & H)]];
        rewrite H in Hok |- *; simpl in *; try done.
      rewrite registered_plugins, Hid, lookup_insert_eq. eauto. }
    destruct (registerSeq_registered_fails _ ps j q Hreg Hj) as [e He].
    rewrite He in Hj'. done.
  - apply IH; [lia|done..].
Qed.
End RegisterFacts.

Section RegisterClaim.
Context {json : EncodingJSON} {W St : Type} {store : ConfigStorage St}.

(** C4, as amended. [Register] is atomic with respect to failure. A call
    whose plugin id is already registered fails; so of any two calls with
    equal ids in a sequence at most one succeeds, and when the earlier
    one succeeds the later one fails (both fail when neither has its
    dependencies registered). A call whose dependency list names an id
    that is not registered fails. A [Register] that fails leaves the
    registry as it was; in particular, after a new registry was given
    only a plugin with a dependency, [List] returns the empty list. *)
Theorem Register_atomic (r : @Registry W St) (p : @Plugin W) :
  (is_Some (plugins r !! p_ID p) →
   Register r p = (r, Some (EAlreadyRegistered (p_ID p)))) ∧
  (∀ dep, dep ∈ p_Dependencies p → plugins r !! dep = None →
          ∃ e, Register r p = (r, Some e)) ∧
  (∀ r' e, Register r p = (r', Some e) → r' = r) ∧
  (∀ ps i j q1 q2,
      i < j → ps !! i = Some q1 → ps !! j = Some q2 → p_ID q1 = p_ID q2 →
      ¬ ((registerSeq r ps).2 !! i = Some None ∧
         (registerSeq r ps).2 !! j = Some None) ∧
      ((registerSeq r ps).2 !! i = Some None →
       ∃ e, (registerSeq r ps).2 !! j = Some (Some e))) ∧
  (∀ router st dep,
      dep ∈ p_Dependencies p →
      (∃ e, (Register (NewRegistry router st) p).2 = Some e) ∧
      ListPlugins (Register (NewRegistry router st) p).1 = []).
Proof.
  split_and!.
  - intros Hsome.
    destruct (Register_cases r p) as [[_ H]|[(Hn & _)|(Hn & _)]]; [done|..];
      rewrite Hn in Hsome; by destruct Hsome.
  - intros dep Hdep Hmiss.
    destruct (Register_cases r p) as [[_ H]|[(_ & d & _ & _ & H)|(_ & Hall & _)]];
      [eauto..|].
    specialize (Hall dep Hdep). rewrite Hmiss in Hall. by destruct Hall.
  - apply Register_failure_unchanged.
  - intros ps i j q1 q2 Hlt Hi Hj Hid. split.
    + by eapply registerSeq_at_most_one.
    + intros Hok.
      assert (Hlen : j < length (registerSeq r ps).2).
      { clear -Hj. revert r j Hj. induction ps as [|p0 ps IH]; intros r j Hj; [done|].
        rewrite registerSeq_cons. cbn [snd length].
        destruct j as [|j]; [lia|]. simpl in Hj.
        specialize (IH (Register r p0).1 _ Hj). lia. }
      apply lookup_lt_is_Some_2 in Hlen as [[e|] He]; [eauto|].
      exfalso. by eapply (registerSeq_at_most_one r ps i j).
  - intros rt st dep Hdep.
    destruct (Register_cases (NewRegistry rt st) p)
      as [[_ H]|[(_ & d & _ & _ & H)|(_ & Hall & _)]].
    + rewrite H. split; [eauto|]. unfold ListPlugins. simpl.
      by rewrite map_to_list_empty.
    + rewrite H. split; [eauto|]. unfold ListPlugins. simpl.
      by rewrite map_to_list_empty.
    + specialize (Hall dep Hdep). simpl in Hall.
      rewrite lookup_empty in Hall. by destruct Hall.
Qed.
End RegisterClaim.

(** C4 on the plugin B that depends on the absent plugin A. *)
Lemma Register_atomic_witness :
  ListPlugins (Register (json := refusingJSON) emptyRegistry orphanPlugin).1 = [].
Proof.
  refine (proj2 (proj2 (proj2 (proj2 (proj2
            (Register_atomic (json := refusingJSON) emptyRegistry orphanPlugin))))
            None NewMemoryConfigStorage "A" _)).
  vm_compute. left.
Defined.

(** C4 as stated fails. Two calls with the id B, each naming the absent
    dependency A: both fail, so it is not the case that exactly one of two
    calls with equal ids succeeds. *)
Lemma Register_equal_ids_both_fail :
  (registerSeq (json := refusingJSON) emptyRegistry [orphanPlugin; orphanPlugin]).2
  = [Some (EMissingDependency "B" "A"); Some (EMissingDependency "B" "A")].
Proof. vm_compute. reflexivity. Qed.
(** ** Deferred routes *)

Section RouteFacts.
Context {json : EncodingJSON} {W St : Type} {store : ConfigStorage St}.
Implicit Types (r : @Registry W St) (p : @Plugin W) (ops : list (RegistryOp W)).

Lemma registered_routes r p :
  router (registered r p) = router r ∧
  match router r with
  | None =>
      routes (registered r p) = routes r ++ contributedRoutes p ∧
      bound (registered r p) = bound r
  | Some ref =>
      routes (registered r p) = routes r ∧
      bound (registered r p) = bound r ++ (bindingOf ref <$> contributedRoutes p)
  end.
Proof.
  unfold registered. rewrite foldl_registerRoute. simpl.
  by destruct (router r).
Qed.

Lemma SetRouter_drains r ref :
  router (SetRouter r (Some ref)) = Some ref ∧
  routes (SetRouter r (Some ref)) = [] ∧
  bound (SetRouter r (Some ref)) = bound r ++ (bindingOf ref <$> routes r).
Proof. unfold SetRouter. by rewrite foldl_registerRoute. Qed.

(** [SetRouter(nil)]: the loop puts the queued routes back in the queue,
    and the queue is emptied after it. *)
Lemma SetRouter_nil r :
  router (SetRouter r None) = None ∧
  routes (SetRouter r None) = [] ∧
  bound (SetRouter r None) = bound r.
Proof. unfold SetRouter. by rewrite foldl_registerRoute. Qed.

Lemma Forall2_bindsRoute_fmap ref (l : list Route) :
  Forall2 bindsRoute (bindingOf ref <$> l) l.
Proof. induction l; constructor; [by exists ref|done]. Qed.

Lemma runOp_placed r c op :
  givesRouter op = true →
  routesPlaced r c → routesPlaced (runOp r op) (c ++ contributedBy r [op]).
Proof.
  unfold routesPlaced. intros Hgives Hinv.
  destruct op as [p|[ref|]]; cbn [runOp contributedBy]; [| |done].
  - destruct (Register_cases r p) as [[_ H]|[(_ & dep & _ & _ & H)|(_ & _ & H)]];
      rewrite H; cbn [fst snd]; rewrite ?app_nil_r; try done.
    destruct (registered_routes r p) as [Hrt Hplaced]. rewrite Hrt.
    destruct (router r) as [ref|].
    + destruct Hinv as [Hq Hb], Hplaced as [-> ->]. split; [done|].
      apply Forall2_app; [done|]. apply Forall2_bindsRoute_fmap.
    + destruct Hinv as [Hb Hq], Hplaced as [-> ->]. by rewrite Hb, Hq.
  - destruct (SetRouter_drains r ref) as (-> & -> & ->).
    rewrite app_nil_r. split; [done|].
    destruct (router r).
    + destruct Hinv as [-> Hb]. by rewrite app_nil_r.
    + destruct Hinv as [-> ->]. apply Forall2_bindsRoute_fmap.
Qed.

Lemma runOps_placed r c ops :
  forallb givesRouter ops = true →
  routesPlaced r c → routesPlaced (runOps r ops) (c ++ contributedBy r ops).
Proof.
  revert r c. induction ops as [|op ops IH]; intros r c Hgive Hinv.
  - simpl. by rewrite app_nil_r.
  - simpl in Hgive. apply andb_true_iff in Hgive as [Hop Hgive].
    cbn [runOps foldl]. fold (runOps (runOp r op) ops).
    pose proof (IH _ _ Hgive (runOp_placed r c op Hop Hinv)) as H.
    cbn [contributedBy] in *. rewrite app_nil_r, <- app_assoc in H. exact H.
Qed.

Lemma runOp_boundAtMostOnce r c op :
  boundAtMostOnce r c →
  boundAtMostOnce (runOp r op) (c ++ contributedBy r [op]).
Proof.
  intros (routed & Hsub & Hb & Hq).
  destruct op as [p|[ref|]]; cbn [runOp contributedBy]; rewrite ?app_nil_r.
  - destruct (Register_cases r p) as [[_ H]|[(_ & dep & _ & _ & H)|(_ & _ & H)]];
      rewrite H; cbn [fst snd]; rewrite ?app_nil_r; try by exists routed.
    destruct (registered_routes r p) as [Hrt Hplaced].
    unfold boundAtMostOnce. rewrite Hrt.
    destruct (router r) as [ref|] eqn:Hrouter.
    + destruct Hplaced as [-> ->]. rewrite Hq in * by eauto.
      exists (routed ++ contributedRoutes p). split_and!; [|by apply Forall2_app;
        [|apply Forall2_bindsRoute_fmap]|done].
      rewrite !app_nil_r in *. by apply sublist_app.
    + destruct Hplaced as [-> ->]. exists routed. split_and!; [|done|by intros [? [=]]].
      rewrite app_assoc. by apply sublist_app.
  - destruct (SetRouter_drains r ref) as (Hr & Hrt & Hbd).
    exists (routed ++ routes r). unfold boundAtMostOnce. rewrite Hrt, Hbd, app_nil_r.
    split_and!; [done| |done].
    apply Forall2_app; [done|apply Forall2_bindsRoute_fmap].
  - destruct (SetRouter_nil r) as (Hr & Hrt & Hbd).
    exists routed. unfold boundAtMostOnce. rewrite Hrt, Hbd, app_nil_r.
    split_and!; [|done|done].
    etrans; [|exact Hsub]. by apply sublist_inserts_r.
Qed.

Lemma runOps_boundAtMostOnce r c ops :
  boundAtMostOnce r c →
  boundAtMostOnce (runOps r ops) (c ++ contributedBy r ops).
Proof.
  revert r c. induction ops as [|op ops IH]; intros r c Hinv.
  - simpl. by rewrite app_nil_r.
  - cbn [runOps foldl]. fold (runOps (runOp r op) ops).
    pose proof (IH _ _ (runOp_boundAtMostOnce r c op Hinv)) as H.
    cbn [contributedBy] in *. rewrite app_nil_r, <- app_assoc in H. exact H.
Qed.

Lemma Register_router r p : router (Register r p).1 = router r.
Proof.
  destruct (Register_cases r p) as [[_ H]|[(_ & dep & _ & _ & H)|(_ & _ & H)]];
    rewrite H; try done.
  apply registered_routes.
Qed.

Lemma runOps_no_SetRouter r ops :
  forallb (λ op, negb (isSetRouter op)) ops = true →
  router (runOps r ops) = router r.
Proof.
  revert r. induction ops as [|op ops IH]; intros r Hall; [done|].
  simpl in Hall. apply andb_true_iff in Hall as [Hop Hall].
  cbn [runOps foldl]. fold (runOps (runOp r op) ops). rewrite IH by done.
  destruct op; [apply Register_router|done].
Qed.

Lemma runOps_router_kept r ops :
  forallb givesRouter ops = true →
  is_Some (router r) → is_Some (router (runOps r ops)).
Proof.
  revert r. induction ops as [|op ops IH]; intros r Hgive Hsome; [done|].
  simpl in Hgive. apply andb_true_iff in Hgive as [Hop Hgive].
  cbn [runOps foldl]. fold (runOps (runOp r op) ops). apply IH; [done|].
  destruct op as [p|[ref|]]; cbn [runOp]; [| |done].
  - by rewrite Register_router.
  - destruct (SetRouter_drains r ref) as (-> & _). eauto.
Qed.

Lemma runOps_some_SetRouter r ops :
  forallb givesRouter ops = true →
  existsb isSetRouter ops = true → is_Some (router (runOps r ops)).
Proof.
  revert r. induction ops as [|op ops IH]; intros r Hgive Hex; [done|].
  simpl in Hgive. apply andb_true_iff in Hgive as [Hop Hgive].
  cbn [runOps foldl]. fold (runOps (runOp r op) ops).
  simpl in Hex. apply orb_true_iff in Hex as [Hex|Hex]; [|by apply IH].
  apply runOps_router_kept; [done|].
  destruct op as [p|[ref|]]; [done| |done]. cbn [runOp].
  destruct (SetRouter_drains r ref) as (-> & _). eauto.
Qed.

End RouteFacts.



(** ** The configuration manager *)

(** What a [Save] of the file storage that fails leaves behind. Nothing
    is written when the id is refused or the configuration does not
    marshal; a file that could not be opened is left as it was; and a
    write that failed after the file was opened leaves the bytes that were
    written, so that a Load of the id reads those. *)
Lemma JSONFile_Save_failure {json : EncodingJSON} {fp : PathFilepath}
  (s : JSONFileConfigStorage) (pluginID : string) (config : ConfigMap) s' err :
  JSONFile_Save s pluginID config = (s', Some err) →
  ((validatePluginID pluginID ≠ None
    ∨ (∃ e, json_MarshalIndent (AMap config) "" "  " = inl e)
    ∨ fs_torn (files s) (configPath s pluginID) = None) →
   fs_files (files s') = fs_files (files s) ∧
   ∀ id, (JSONFile_Load s' id).2 = (JSONFile_Load s id).2) ∧
  (∀ data n,
      validatePluginID pluginID = None →
      json_MarshalIndent (AMap config) "" "  " = inr data →
      fs_torn (files s) (configPath s pluginID) = Some n →
      fs_files (files s')
      = <[configPath s pluginID := String.substring 0 n data]> (fs_files (files s))).
Proof.
  unfold JSONFile_Save.
  destruct (validatePluginID pluginID) as [e|] eqn:Hid.
  { intros [= <- _]. split; [done|]. by intros data n [=]. }
  destruct (json_MarshalIndent _ _ _) as [e|data] eqn:Hm.
  { intros [= <- _]. split; [done|]. by intros data n _ [=]. }
  unfold writeFile. cbn [fs_touch fs_denied fs_torn fs_files fs_log].
  destruct (fs_denied (files s) _); [|done].
  destruct (fs_torn (files s) (configPath s pluginID)) as [n|] eqn:Ht.
  - intros [= <- _]. split.
    + intros [Hno|[[e He]|Hno]]; done.
    + intros data' n' _ [= <-] [= <-]. done.
  - intros [= <- _]. split; [|by intros data' n' _ _ [=]].
    intros _. split; [done|]. intros id.
    unfold JSONFile_Load, readFile, configPath. simpl.
    destruct (fs_files (files s) !! _); [|done].
    by destruct (json_Unmarshal _).
Qed.

Section ConfigManagerFacts.
Context {json : EncodingJSON} {St : Type} {store : ConfigStorage St}.
Implicit Types (cm : ConfigManager St).

(** The loop over the fields stops at the first field in error. *)
Lemma validateFields_first configMap fields err :
  validateFields configMap fields = Some err →
  ∃ passed field rest,
    fields = passed ++ field :: rest ∧
    Forall (λ f, validateConfigField configMap f = None) passed ∧
    validateConfigField configMap field = Some err ∧
    fieldOf err = Some (cf_Name field).
Proof.
  induction fields as [|f fields IH]; [done|]. simpl.
  destruct (validateConfigField configMap f) as [e|] eqn:Hf.
  - intros [= ->]. exists [], f, fields. split_and!; try done.
    unfold validateConfigField in Hf.
    destruct (configMap !! cf_Name f) as [value|].
    + destruct (cf_Required f && _); [by injection Hf as <-|].
      destruct (validateField value f); [by injection Hf as <-|done].
    + destruct (cf_Required f); [by injection Hf as <-|done].
  - intros Herr. destruct (IH Herr) as (passed & field & rest & -> & Hp & Hfield & Hname).
    exists (f :: passed), field, rest. split_and!; try done. by constructor.
Qed.

Lemma validateFields_all_pass configMap fields :
  validateFields configMap fields = None ↔
  Forall (λ f, validateConfigField configMap f = None) fields.
Proof.
  induction fields as [|f fields IH]; simpl; [by split; [constructor|]|].
  destruct (validateConfigField configMap f) eqn:Hf.
  - split; [done|]. intros HF. apply Forall_cons in HF as [HF _]. congruence.
  - rewrite IH. split; [by constructor|]. by intros [_ ?]%Forall_cons.
Qed.

Lemma GetConfig_same_result cm cm' id :
  cache cm' = cache cm →
  sameStored (storage cm') (storage cm) →
  (GetConfig cm' id).2 = (GetConfig cm id).2.
Proof.
  intros Hc Hs. unfold GetConfig. rewrite Hc.
  destruct (cache cm !! id); [done|].
  specialize (Hs id).
  destruct (Load (storage cm') id) as [s1 [e1|m1]],
           (Load (storage cm) id) as [s2 [e2|m2]]; simpl in *; congruence.
Qed.

(** What [SetConfig] leaves when it returns an error, whatever the
    storage. *)
Lemma SetConfig_error cm pluginID config cm' err :
  SetConfig cm pluginID config = (cm', Some err) →
  cache cm' = cache cm ∧ schemas cm' = schemas cm ∧
  (∀ id prior, cache cm !! id = Some prior →
               GetConfig cm' id = (cm', (prior, true))) ∧
  (storage cm' = storage cm
   ∨ ∃ configMap serr,
       toMap config = inr configMap ∧ err = ESaveConfig serr ∧
       Save (storage cm) pluginID configMap = (storage cm', Some serr)) ∧
  (sameStored (storage cm') (storage cm) →
   ∀ id, (GetConfig cm' id).2 = (GetConfig cm id).2).
Proof.
  intros Hset.
  assert (Hc : cache cm' = cache cm ∧ schemas cm' = schemas cm ∧
               (storage cm' = storage cm
                ∨ ∃ configMap serr,
                    toMap config = inr configMap ∧ err = ESaveConfig serr ∧
                    Save (storage cm) pluginID configMap
                    = (storage cm', Some serr))).
  { revert Hset. unfold SetConfig.
    destruct (match schemas cm !! pluginID with
              | Some schema => validateConfig config schema
              | None => None
              end); [by intros [= <- _]; split_and!; try left|].
    destruct (toMap config) as [e|configMap];
      [by intros [= <- _]; split_and!; try left|].
    destruct (Save (storage cm) pluginID configMap) as [st [serr|]] eqn:Hsave;
      [|done].
    intros [= <- <-]. split_and!; try done. right. by exists configMap, serr. }
  destruct Hc as (Hcache & Hsch & Hst). split_and!; try done.
  - intros id prior Hprior. unfold GetConfig. by rewrite Hcache, Hprior.
  - intros Hsame id. by apply GetConfig_same_result.
Qed.
End ConfigManagerFacts.



(** ** The default configuration of a plugin *)

Section DefaultConfigFacts.
Context {json : EncodingJSON} {W St : Type} {store : ConfigStorage St}.
Implicit Types (r : @Registry W St) (p : @Plugin W) (cm : ConfigManager St).

Lemma SetConfig_success cm pluginID config cm' :
  SetConfig cm pluginID config = (cm', None) →
  ∃ configMap,
    toMap config = inr configMap ∧
    (Save (storage cm) pluginID configMap).2 = None ∧
    cm' = mkConfigManager (Save (storage cm) pluginID configMap).1 (schemas cm)
            (<[pluginID := config]> (cache cm)).
Proof.
  unfold SetConfig.
  destruct (match schemas cm !! pluginID with
            | Some schema => validateConfig config schema
            | None => None
            end); [done|].
  destruct (toMap config) as [e|configMap]; [done|].
  destruct (Save (storage cm) pluginID configMap) as [st [serr|]] eqn:Hsave; [done|].
  intros [= <-]. exists configMap. by rewrite Hsave.
Qed.

Lemma registered_configManager r p :
  configManager (registered r p)
  = RegisterSchema (SetConfig (configManager r) (p_ID p) (p_DefaultConfig p)).1
      (p_ID p) (GenerateSchemaFromStruct (p_Config p)).
Proof.
  unfold registered. rewrite foldl_registerRoute. simpl. by destruct (router r).
Qed.

Lemma Registry_GetConfig_cached r pluginID config :
  cache (configManager r) !! pluginID = Some config →
  Registry_GetConfig r pluginID = (r, (config, true)).
Proof.
  intros Hc. unfold Registry_GetConfig, GetConfig. rewrite Hc. by destruct r.
Qed.

(** A [GetConfig] that finds nothing in the cache asks the storage to Load,
    and to do nothing else; when the Load fails it answers nil and false,
    and caches nothing. *)
Lemma GetConfig_miss cm pluginID st err :
  cache cm !! pluginID = None →
  Load (storage cm) pluginID = (st, inl err) →
  GetConfig cm pluginID = (mkConfigManager st (schemas cm) (cache cm), (ANil, false)).
Proof. intros Hc Hl. unfold GetConfig. by rewrite Hc, Hl. Qed.

(** C3, as amended. When [Register] accepts a plugin, it sets the declared
    default configuration of the plugin at once: the default is converted
    to a map and saved to the storage during [Register], not at the first
    read. When that save succeeded, the default is in the cache, the first
    [GetConfig] returns it from there without touching the storage or the
    rest of the registry, and so does the second. A [GetConfig] that finds
    neither a cached nor a stored value returns nil and false, and saves
    nothing. *)
Theorem Register_installs_default r p r' cm1 :
  Register r p = (r', None) →
  SetConfig (configManager r) (p_ID p) (p_DefaultConfig p) = (cm1, None) →
  (∃ configMap,
      toMap (p_DefaultConfig p) = inr configMap ∧
      (Save (storage (configManager r)) (p_ID p) configMap).2 = None ∧
      storage (configManager r')
      = (Save (storage (configManager r)) (p_ID p) configMap).1) ∧
  cache (configManager r') !! p_ID p = Some (p_DefaultConfig p) ∧
  Registry_GetConfig r' (p_ID p) = (r', (p_DefaultConfig p, true)) ∧
  Registry_GetConfig (Registry_GetConfig r' (p_ID p)).1 (p_ID p)
  = (r', (p_DefaultConfig p, true)) ∧
  (∀ cm pluginID st err,
      cache cm !! pluginID = None →
      Load (storage cm) pluginID = (st, inl err) →
      GetConfig cm pluginID
      = (mkConfigManager st (schemas cm) (cache cm), (ANil, false))).
Proof.
  intros Hreg Hset.
  destruct (Register_cases r p) as [[_ H]|[(_ & dep & _ & _ & H)|(_ & _ & H)]];
    rewrite H in Hreg; try done.
  injection Hreg as <-.
  destruct (SetConfig_success _ _ _ _ Hset) as (configMap & Hmap & Hsave & ->).
  assert (Hcache : cache (configManager (registered r p)) !! p_ID p
                   = Some (p_DefaultConfig p)).
  { rewrite registered_configManager, Hset. simpl. apply lookup_insert_eq. }
  split_and!.
  - exists configMap. split_and!; try done.
    by rewrite registered_configManager, Hset.
  - done.
  - by apply Registry_GetConfig_cached.
  - rewrite (Registry_GetConfig_cached _ _ _ Hcache). cbn [fst].
    by apply Registry_GetConfig_cached.
  - apply GetConfig_miss.
Qed.
End DefaultConfigFacts.

(** C3 on the memory storage and a plugin with a default configuration. *)
Lemma Register_installs_default_witness :
  Registry_GetConfig
    (Register (json := refusingJSON) emptyRegistry greeterPlugin).1
    "com.example.greeter"
  = ((Register (json := refusingJSON) emptyRegistry greeterPlugin).1,
     (AMap {["greeting" := AString "hello"]}, true)).
Proof.
  refine (proj1 (proj2 (proj2
            (Register_installs_default (json := refusingJSON) emptyRegistry
               greeterPlugin _
               (SetConfig (json := refusingJSON) (configManager emptyRegistry)
                  "com.example.greeter"
                  (AMap {["greeting" := AString "hello"]})).1 _ _)))).
  - vm_compute. reflexivity.
  - vm_compute. reflexivity.
Defined.

(** C3 as stated fails. On the file storage, a plugin whose id holds "/" is
    registered, yet its default is refused by Save: nothing is stored for
    it, and the first [GetConfig] returns nil and false, not the default,
    and writes no file. On the memory storage, the default of a plugin is
    already stored when [Register] returns, before any [GetConfig]. *)
Lemma GetConfig_default_not_lazy :
  let r := (Register (json := refusingJSON) (store := fileStore)
              fileRegistry slashPlugin).1 in
  (Register (json := refusingJSON) (store := fileStore)
     fileRegistry slashPlugin).2 = None ∧
  (Get r "com/example") = inr slashPlugin ∧
  (Load (ConfigStorage := fileStore) (storage (configManager r)) "com/example").2
  = inl (EReadConfigFile (EExternal "no such file or directory")) ∧
  (Registry_GetConfig (store := fileStore) r "com/example").2 = (ANil, false) ∧
  fs_files (files (storage (configManager
     (Registry_GetConfig (store := fileStore) r "com/example").1))) = ∅ ∧
  configs (storage (configManager
     (Register (json := refusingJSON) emptyRegistry greeterPlugin).1))
    !! "com.example.greeter"
  = Some {["greeting" := AString "hello"]}.
Proof. cbv zeta. split_and!; vm_compute; reflexivity. Qed.
(** ** Lifecycle order *)

Section EachFacts.
Context {W St : Type}.

Lemma each_ext {A : Type} (body1 body2 : @Run W St → A → option (Run * option Err))
  s l :
  (∀ s x, body1 s x = body2 s x) → each body1 s l = each body2 s l.
Proof.
  intros Hext. revert s. induction l as [|x l IH]; intros s; simpl; [done|].
  rewrite Hext. destruct (body2 s x) as [[s' [e|]]|]; auto.
Qed.

Lemma initializePlugin_advance fuel (s : @Run W St) p :
  initializePlugin fuel s p
  = advancePlugin initialized markInitialized p_Init PInit EInitFailed fuel s p.
Proof.
  revert s p. induction fuel as [|fuel IH]; intros s p; simpl; [done|].
  destruct (default false _); [done|].
  erewrite each_ext; [reflexivity|].
  intros s' dep. simpl. destruct (plugins (run_reg s') !! dep); [apply IH|done].
Qed.

Lemma startPlugin_advance fuel (s : @Run W St) p :
  startPlugin fuel s p
  = advancePlugin started (λ r id, markStarted r id true) p_Start PStart
      EStartFailed fuel s p.
Proof.
  revert s p. induction fuel as [|fuel IH]; intros s p; simpl; [done|].
  destruct (default false _); [done|].
  erewrite each_ext; [reflexivity|].
  intros s' dep. simpl. destruct (plugins (run_reg s') !! dep); [apply IH|done].
Qed.

Lemma depsBefore_nil (G : gmap string (@Plugin W)) phase : depsBefore G phase [].
Proof. intros before c after P Q Heq. by destruct before. Qed.

Lemma depsBefore_snoc (G : gmap string (@Plugin W)) phase calls c :
  depsBefore G phase calls →
  (∀ P Q, G !! call_id c = Some P → Q ∈ p_Dependencies P →
          mkCall phase Q None ∈ calls) →
  depsBefore G phase (calls ++ [c]).
Proof.
  intros Hcalls Hc before c' after P Q Heq Hph HP HQ.
  destruct after as [|a after _] using rev_ind.
  - apply app_inj_tail in Heq as [-> ->]. by eapply Hc.
  - rewrite app_comm_cons, app_assoc in Heq.
    apply app_inj_tail in Heq as [-> _].
    by eapply Hcalls.
Qed.
End EachFacts.

Section AdvanceFacts.
Context {W St : Type}.
Variables (flag other : @Registry W St → gmap string bool)
          (mark : @Registry W St → string → @Registry W St)
          (method : @Plugin W → W → W * option Err)
          (phase : Phase)
          (wrap : string → Err → Err).
Variables (G : gmap string (@Plugin W)) (rank : string → nat)
          (other0 : gmap string bool).
Hypothesis mark_plugins : ∀ r id, plugins (mark r id) = plugins r.
Hypothesis mark_other : ∀ r id, other (mark r id) = other r.
Hypothesis mark_flag : ∀ r id, flag (mark r id) = <[id := true]> (flag r).
Hypothesis G_ranked : ranked G rank.

Abbreviation Inv := (RunInv G flag other other0 phase).
Abbreviation Done := (RunEnd G other other0 phase).
Abbreviation advance := (advancePlugin flag mark method phase wrap).

Lemma RunInv_end s : Inv s → Done s.
Proof.
  intros [? ? ? Hok ? ?]. split; try done.
  intros c Hc. by rewrite (Hok c Hc).
Qed.

Lemma extends_refl b (s : @Run W St) : extends rank b s s.
Proof. exists []. split; [by rewrite app_nil_r|]. by intros c ?%elem_of_nil. Qed.

Lemma extends_trans b (s1 s2 s3 : @Run W St) :
  extends rank b s1 s2 → extends rank b s2 s3 → extends rank b s1 s3.
Proof.
  intros (e1 & H1 & Hr1) (e2 & H2 & Hr2). exists (e1 ++ e2).
  split; [by rewrite H2, H1, app_assoc|].
  intros c [?|?]%elem_of_app; auto.
Qed.

Lemma extends_weaken b b' (s s' : @Run W St) :
  b ≤ b' → extends rank b s s' → extends rank b' s s'.
Proof.
  intros Hle (e & H & Hr). exists e. split; [done|].
  intros c Hc. specialize (Hr c Hc). lia.
Qed.

Lemma extends_elem b (s s' : @Run W St) c :
  extends rank b s s' → c ∈ run_calls s → c ∈ run_calls s'.
Proof. intros (e & -> & _) Hc. apply elem_of_app. by left. Qed.

(** A loop whose body keeps the invariant keeps it, and has called with
    success the method of every element it went through. *)
Lemma each_spec {A : Type} (key : A → string)
  (body : @Run W St → A → option (Run * option Err)) b l :
  (∀ s x, Inv s → x ∈ l →
     ∃ s' res, body s x = Some (s', res) ∧
       match res with
       | None => Inv s' ∧ extends rank b s s' ∧
                 mkCall phase (key x) None ∈ run_calls s'
       | Some _ => Done s'
       end) →
  ∀ s, Inv s →
    ∃ s' res, each body s l = Some (s', res) ∧
      match res with
      | None => Inv s' ∧ extends rank b s s' ∧
                ∀ x, x ∈ l → mkCall phase (key x) None ∈ run_calls s'
      | Some _ => Done s'
      end.
Proof.
  induction l as [|x l IH]; intros Hbody s Hs.
  - exists s, None. split; [done|]. split; [done|]. split; [apply extends_refl|].
    by intros x ?%elem_of_nil.
  - destruct (Hbody s x Hs) as (s1 & res1 & Hb & Hres1); [by left|].
    simpl. rewrite Hb. destruct res1 as [err|].
    + by exists s1, (Some err).
    + destruct Hres1 as (Hs1 & Hext1 & Hx).
      destruct (IH (λ s y Hinv Hy, Hbody s y Hinv (list_elem_of_further _ _ _ Hy))
                  s1 Hs1) as (s2 & res2 & He & Hres2).
      exists s2, res2. split; [done|]. destruct res2 as [err|]; [done|].
      destruct Hres2 as (Hs2 & Hext2 & Hl). split; [done|].
      split; [by eapply extends_trans|].
      intros y [->|Hy]%elem_of_cons; [|by apply Hl].
      by eapply extends_elem.
Qed.

Lemma not_flagged_not_called s id :
  Inv s → default false (flag (run_reg s) !! id) = false →
  id ∉ call_id <$> run_calls s.
Proof.
  intros Hs Hflag Hin. apply list_elem_of_fmap in Hin as (c & -> & Hc).
  pose proof (inv_ok _ _ _ _ _ _ Hs c Hc) as Hcok.
  rewrite Hcok in Hc. apply (inv_flag _ _ _ _ _ _ Hs) in Hc. congruence.
Qed.

(** The traversal from one plugin: it returns when the fuel is above the
    rank of the plugin, and keeps the invariant. *)
Lemma advance_spec fuel s p :
  Inv s → G !! p_ID p = Some p → rank (p_ID p) < fuel →
  ∃ s' res, advance fuel s p = Some (s', res) ∧
    match res with
    | None => Inv s' ∧ extends rank (S (rank (p_ID p))) s s' ∧
              mkCall phase (p_ID p) None ∈ run_calls s'
    | Some _ => Done s'
    end.
Proof.
  revert s p. induction fuel as [|fuel IH]; intros s p Hs Hp Hrank; [lia|].
  cbn [advancePlugin].
  destruct (default false (flag (run_reg s) !! p_ID p)) eqn:Hflag.
  { exists s, None. split; [done|]. split; [done|]. split; [apply extends_refl|].
    by apply (inv_flag _ _ _ _ _ _ Hs). }
  destruct (G_ranked _ _ Hp) as (_ & _ & Hdeps).
  set (body := λ (s : @Run W St) depID,
         match plugins (run_reg s) !! depID with
         | Some dep => advance fuel s dep
         | None => Some (s, None)
         end).
  destruct (each_spec id body (rank (p_ID p)) (p_Dependencies p)) with (s := s)
    as (s1 & res1 & Heach & Hres1); [|done|].
  { intros s0 d Hs0 Hd. destruct (Hdeps d Hd) as (q & Hq & Hlt).
    destruct (G_ranked _ _ Hq) as (Hqid & _ & _).
    unfold body. rewrite (inv_plugins _ _ _ _ _ _ Hs0), Hq.
    destruct (IH s0 q Hs0) as (s' & res & Hadv & Hres).
    { by rewrite Hqid. }
    { rewrite Hqid. lia. }
    exists s', res. split; [done|]. destruct res as [err|]; [done|].
    rewrite Hqid in Hres. destruct Hres as (Hs' & Hext & Hcall).
    split; [done|]. split; [|done].
    eapply extends_weaken; [|done]. lia. }
  fold body. rewrite Heach. destruct res1 as [err|].
  { by exists s1, (Some err). }
  destruct Hres1 as (Hs1 & Hext1 & Hcalled).
  assert (Hfresh : p_ID p ∉ call_id <$> run_calls s1).
  { destruct Hext1 as (ext & -> & Hext). rewrite fmap_app.
    intros [Hin|Hin]%elem_of_app.
    - by apply (not_flagged_not_called s (p_ID p) Hs Hflag).
    - apply list_elem_of_fmap in Hin as (c & Hid & Hc).
      specialize (Hext c Hc). rewrite <- Hid in Hext. lia. }
  assert (Hnodup : ∀ e, NoDup (call_id <$> run_calls s1 ++ [mkCall phase (p_ID p) e])).
  { intros e. rewrite fmap_app. apply NoDup_app. split_and!.
    - apply (inv_nodup _ _ _ _ _ _ Hs1).
    - intros x Hx [->|[]%elem_of_nil]%elem_of_cons. done.
    - apply NoDup_singleton. }
  assert (Hdb : ∀ e, depsBefore G phase (run_calls s1 ++ [mkCall phase (p_ID p) e])).
  { intros e. apply depsBefore_snoc; [apply (inv_deps _ _ _ _ _ _ Hs1)|].
    cbn [call_id]. intros P Q HP HQ. rewrite Hp in HP. injection HP as <-.
    by apply Hcalled. }
  destruct (method p (run_world s1)) as [w [err|]].
  - eexists _, _. split; [done|]. cbn beta iota.
    destruct (RunInv_end s1 Hs1) as [Hpl Hot Hph _ _].
    split; cbn [run_reg run_calls]; try done.
    intros c [Hc| ->%list_elem_of_singleton]%elem_of_app; [by apply Hph|done].
  - eexists _, _. split; [done|]. cbn beta iota. split_and!.
    + split; cbn [run_reg run_calls].
      * rewrite mark_plugins. apply (inv_plugins _ _ _ _ _ _ Hs1).
      * rewrite mark_other. apply (inv_other _ _ _ _ _ _ Hs1).
      * intros id'. rewrite mark_flag, elem_of_app, list_elem_of_singleton.
        rewrite <- (inv_flag _ _ _ _ _ _ Hs1).
        destruct (decide (p_ID p = id')) as [<-|Hne].
        -- rewrite lookup_insert_eq. simpl. split; [by right|done].
        -- rewrite lookup_insert_ne by done. split; [by left|].
           intros [?|[=]]; done.
      * intros c [Hc| ->%list_elem_of_singleton]%elem_of_app; [|done].
        by apply (inv_ok _ _ _ _ _ _ Hs1).
      * apply Hnodup.
      * apply Hdb.
    + destruct Hext1 as (ext & Hcalls & Hext).
      exists (ext ++ [mkCall phase (p_ID p) None]). cbn [run_calls].
      split; [by rewrite Hcalls, app_assoc|].
      intros c [Hc| ->%list_elem_of_singleton]%elem_of_app.
      * specialize (Hext c Hc). lia.
      * cbn [call_id]. lia.
    + cbn [run_calls]. apply elem_of_app. right. by apply list_elem_of_singleton.
Qed.

(** The loop of [Initialize] and of [Start], over plugins of the registry
    in any order. *)
Lemma advance_all_spec fuel visit s :
  Inv s → size G < fuel →
  (∀ p, p ∈ visit → G !! p_ID p = Some p) →
  ∃ s' res, each (advance fuel) s visit = Some (s', res) ∧
    Done s' ∧
    (res = None → ∀ p, p ∈ visit → mkCall phase (p_ID p) None ∈ run_calls s').
Proof.
  intros Hs Hfuel Hvisit.
  destruct (each_spec p_ID (advance fuel) (size G) visit) with (s := s)
    as (s' & res & Heach & Hres); [|done|].
  { intros s0 p Hs0 Hp. specialize (Hvisit p Hp).
    destruct (G_ranked _ _ Hvisit) as (_ & Hlt & _).
    destruct (advance_spec fuel s0 p Hs0 Hvisit) as (s1 & res1 & Hadv & Hres1); [lia|].
    exists s1, res1. split; [done|]. destruct res1 as [err|]; [done|].
    destruct Hres1 as (Hs1 & Hext & Hcall). split; [done|]. split; [|done].
    eapply extends_weaken; [|done]. lia. }
  exists s', res. split; [done|]. destruct res as [err|].
  - split; [done|]. done.
  - destruct Hres as (Hs' & _ & Hall). split; [by apply RunInv_end|].
    intros _. apply Hall.
Qed.
End AdvanceFacts.

(** ** The outcome of a traversal *)

Section OutcomeFacts.
Context {W St : Type}.
Variables (flag other : @Registry W St → gmap string bool)
          (mark : @Registry W St → string → @Registry W St)
          (method : @Plugin W → W → W * option Err)
          (phase : Phase)
          (wrap : string → Err → Err).
Hypothesis mark_plugins : ∀ r id, plugins (mark r id) = plugins r.
Hypothesis mark_other : ∀ r id, other (mark r id) = other r.
Hypothesis mark_flag : ∀ r id, flag (mark r id) = <[id := true]> (flag r).

Abbreviation Outcome := (runOutcome flag other phase wrap).

Lemma runOutcome_refl (s : @Run W St) : Outcome s s None.
Proof.
  exists []. rewrite app_nil_r. split_and!; try done.
  intros id. split; [by left|]. intros [?|?%elem_of_nil]; done.
Qed.

Lemma runOutcome_trans (s1 s2 s3 : @Run W St) res :
  Outcome s1 s2 None → Outcome s2 s3 res → Outcome s1 s3 res.
Proof.
  intros (e1 & H1 & Hok1 & Hf1 & Hp1 & Ho1) (e2 & H2 & Hres & Hf2 & Hp2 & Ho2).
  exists (e1 ++ e2). split_and!.
  - by rewrite H2, H1, app_assoc.
  - destruct res as [e|].
    + destruct Hres as (ext0 & id & err & -> & -> & Hok2).
      exists (e1 ++ ext0), id, err. split_and!; [by rewrite app_assoc|done|].
      by apply Forall_app.
    + by apply Forall_app.
  - intros id. rewrite Hf2, Hf1, elem_of_app. tauto.
  - by rewrite Hp2.
  - by rewrite Ho2.
Qed.

Lemma each_outcome {A : Type} (body : @Run W St → A → option (Run * option Err)) l :
  (∀ s x s' res, body s x = Some (s', res) → Outcome s s' res) →
  ∀ s s' res, each body s l = Some (s', res) → Outcome s s' res.
Proof.
  intros Hbody. induction l as [|x l IH]; intros s s' res; simpl.
  - intros [= <- <-]. apply runOutcome_refl.
  - destruct (body s x) as [[s1 [e|]]|] eqn:Hb; [| |done].
    + intros [= <- <-]. by eapply Hbody.
    + intros Heach. eapply runOutcome_trans; [by eapply Hbody|by apply IH].
Qed.

Lemma advance_outcome fuel (s : @Run W St) p s' res :
  advancePlugin flag mark method phase wrap fuel s p = Some (s', res) →
  Outcome s s' res.
Proof.
  revert s p s' res. induction fuel as [|fuel IH]; intros s p s' res; [done|].
  cbn [advancePlugin].
  destruct (default false (flag (run_reg s) !! p_ID p)).
  { intros [= <- <-]. apply runOutcome_refl. }
  match goal with
  | |- context [each ?b s (p_Dependencies p)] =>
      destruct (each b s (p_Dependencies p)) as [[s1 [e|]]|] eqn:Heach;
      [| |done];
      apply (each_outcome b) in Heach
  end.
  - intros [= <- <-]. done.
  - intros s0 d s0' res0.
    destruct (plugins (run_reg s0) !! d); [apply IH|].
    intros [= <- <-]. apply runOutcome_refl.
  - destruct (method p (run_world s1)) as [w [err|]]; intros [= <- <-].
    + eapply runOutcome_trans; [done|].
      exists [mkCall phase (p_ID p) (Some err)]. cbn [run_calls run_reg].
      split_and!; try done.
      * exists [], (p_ID p), err. by split_and!.
      * intros id. split; [by left|].
        intros [?|[=]%list_elem_of_singleton]; done.
    + eapply runOutcome_trans; [done|].
      exists [mkCall phase (p_ID p) None]. cbn [run_calls run_reg].
      split_and!; try done.
      * by constructor.
      * intros id. rewrite mark_flag, list_elem_of_singleton.
        destruct (decide (p_ID p = id)) as [<-|Hne].
        -- rewrite lookup_insert_eq. simpl. split; [by right|done].
        -- rewrite lookup_insert_ne by done. split; [by left|].
           intros [?|[=]]; done.
  - intros s0 d s0' res0.
    destruct (plugins (run_reg s0) !! d); [apply IH|].
    intros [= <- <-]. apply runOutcome_refl.
Qed.

(** A traversal over plugins that are all flagged calls nothing. *)
Lemma advance_all_flagged fuel visit (s : @Run W St) :
  (∀ p, p ∈ visit → default false (flag (run_reg s) !! p_ID p) = true) →
  each (advancePlugin flag mark method phase wrap (S fuel)) s visit = Some (s, None).
Proof.
  induction visit as [|p visit IH]; intros Hall; [done|].
  cbn [each advancePlugin]. rewrite (Hall p) by left.
  apply IH. intros q Hq. apply Hall. by right.
Qed.

(** A traversal in which no method returns an error returns none. [P]
    is what the body keeps of the run. *)
Lemma each_succeeds {A : Type} (body : @Run W St → A → option (Run * option Err))
  (P : @Run W St → Prop) l :
  (∀ s x s' res, x ∈ l → P s → body s x = Some (s', res) → res = None ∧ P s') →
  ∀ s s' res, P s → each body s l = Some (s', res) → res = None ∧ P s'.
Proof.
  induction l as [|x l IH]; intros Hbody s s' res HP; simpl.
  - by intros [= <- <-].
  - destruct (body s x) as [[s1 res1]|] eqn:Hb; [|done].
    destruct (Hbody s x s1 res1) as [-> HP1]; [by left|done|done|].
    apply IH; [|done]. intros s0 y s0' res0 Hy. apply Hbody. by right.
Qed.

Lemma advance_succeeds (G : gmap string (@Plugin W)) fuel (s : @Run W St) p s' res :
  (∀ id q w, G !! id = Some q → (method q w).2 = None) →
  (∀ w, (method p w).2 = None) →
  plugins (run_reg s) = G →
  advancePlugin flag mark method phase wrap fuel s p = Some (s', res) →
  res = None ∧ plugins (run_reg s') = G.
Proof.
  intros HG. revert s p s' res.
  induction fuel as [|fuel IH]; intros s p s' res Hp HPs; [done|].
  cbn [advancePlugin].
  destruct (default false (flag (run_reg s) !! p_ID p)).
  { by intros [= <- <-]. }
  match goal with
  | |- context [each ?b s (p_Dependencies p)] =>
      destruct (each b s (p_Dependencies p)) as [[s1 res1]|] eqn:Heach;
      [|done];
      apply (each_succeeds b (λ s, plugins (run_reg s) = G)) in Heach;
      [destruct Heach as [-> HP1]| |done]
  end.
  - destruct (method p (run_world s1)) as [w [err|]] eqn:Hm.
    + specialize (Hp (run_world s1)). rewrite Hm in Hp. done.
    + intros [= <- <-]. cbn [run_reg]. by rewrite mark_plugins.
  - intros s0 d s0' res0 _ HP0.
    destruct (plugins (run_reg s0) !! d) as [q|] eqn:Hq.
    + apply IH; [|done]. intros w. apply (HG d). by rewrite <- HP0.
    + by intros [= <- <-].
Qed.
End OutcomeFacts.

Section LifecycleClaim.
Context {json : EncodingJSON} {W St : Type} {store : ConfigStorage St}.
Implicit Types (r : @Registry W St) (p : @Plugin W).

Lemma registered_flags r p :
  initialized (registered r p) = initialized r ∧
  started (registered r p) = started r.
Proof.
  unfold registered. rewrite foldl_registerRoute. simpl. by destruct (router r).
Qed.

(** The registration order ranks the plugins: a plugin is registered after
    the plugins it depends on. No plugin of a registry that only
    [Register] has touched is initialized or started. *)
Lemma Reachable_ranked r :
  Reachable r →
  (∃ rank, ranked (plugins r) rank) ∧ initialized r = ∅ ∧ started r = ∅.
Proof.
  induction 1 as [router st|r p r' _ ([rank Hrank] & Hinit & Hstart) Hreg].
  - split_and!; try done. exists (λ _, 0). intros id p Hp.
    simpl in Hp. by rewrite lookup_empty in Hp.
  - destruct (Register_cases r p) as [[_ H]|[(_ & dep & _ & _ & H)|(Hfree & Hdeps & H)]];
      rewrite H in Hreg; try done.
    injection Hreg as <-.
    destruct (registered_flags r p) as [-> ->]. split_and!; try done.
    exists (λ id, if decide (id = p_ID p) then size (plugins r) else rank id).
    rewrite registered_plugins. intros id q Hq.
    rewrite map_size_insert_None by done.
    destruct (decide (id = p_ID p)) as [->|Hne].
    + rewrite lookup_insert_eq in Hq. injection Hq as <-.
      split_and!; [done|lia|]. intros d Hd.
      destruct (Hdeps d Hd) as [q Hq]. exists q.
      assert (d ≠ p_ID p) by congruence.
      rewrite lookup_insert_ne by done. rewrite decide_False by done.
      split; [done|]. by destruct (Hrank d q Hq) as (_ & ? & _).
    + rewrite lookup_insert_ne in Hq by done.
      destruct (Hrank id q Hq) as (Hid & Hlt & Hqdeps).
      split_and!; [done|lia|]. intros d Hd.
      destruct (Hqdeps d Hd) as (q' & Hq' & Hlt').
      assert (d ≠ p_ID p) by congruence.
      exists q'. rewrite lookup_insert_ne by done. by rewrite decide_False.
Qed.

(** A loop over the map of plugins meets plugins that are stored under
    their id. *)
Lemma ListPlugins_registered r p :
  Reachable r → p ∈ ListPlugins r → plugins r !! p_ID p = Some p.
Proof.
  intros Hr Hp. destruct (Reachable_ranked r Hr) as ([rank Hrank] & _).
  unfold ListPlugins in Hp. apply list_elem_of_fmap in Hp as ([id q] & -> & Hq).
  apply elem_of_map_to_list in Hq. simpl.
  by destruct (Hrank id q Hq) as (-> & _).
Qed.

(** The outcome of one run of each of the two loops. *)
Lemma Initialize_outcome (fuel : nat) (visit : list (@Plugin W)) (s s' : @Run W St)
  (res : option Err) :
  Initialize fuel visit s = Some (s', res) →
  runOutcome initialized started PInit EInitFailed s s' res.
Proof.
  unfold Initialize.
  rewrite (each_ext _ _ _ _ (initializePlugin_advance fuel)).
  apply each_outcome. intros s0 p s0' res0.
  by apply advance_outcome.
Qed.

Lemma Start_outcome (fuel : nat) (visit : list (@Plugin W)) (s s' : @Run W St)
  (res : option Err) :
  Start fuel visit s = Some (s', res) →
  runOutcome started initialized PStart EStartFailed s s' res.
Proof.
  unfold Start.
  rewrite (each_ext _ _ _ _ (startPlugin_advance fuel)).
  apply each_outcome. intros s0 p s0' res0.
  by apply advance_outcome.
Qed.

End LifecycleClaim.

(** The run of the witness: A is initialized before B, each once. *)
Example Initialize_chain_calls :
  Initialize 3 chainVisit (mkRun chainRegistry () [])
  = Some (mkRun (markInitialized (markInitialized chainRegistry "A") "B") ()
            [mkCall PInit "A" None; mkCall PInit "B" None], None).
Proof. vm_compute. reflexivity. Qed.
(** * Beyond the claims *)

(** ** The memory storage *)

(** X1. On the memory storage, Save never fails, a Load of the id just
    saved returns the saved configuration, and the Load of every other id
    returns what it returned before. *)
Theorem Memory_Save_Load (s : MemoryConfigStorage) (pluginID : string)
  (config : ConfigMap) :
  (Memory_Save s pluginID config).2 = None ∧
  (Memory_Load (Memory_Save s pluginID config).1 pluginID).2 = inr config ∧
  (∀ other, other ≠ pluginID →
     (Memory_Load (Memory_Save s pluginID config).1 other).2
     = (Memory_Load s other).2).
Proof.
  unfold Memory_Save, Memory_Load. simpl. split_and!; [done|..].
  - by rewrite lookup_insert_eq.
  - intros other Hne. rewrite lookup_insert_ne by congruence.
    by destruct (configs s !! other).
Qed.

(** X2. On the memory storage, Delete never fails, whether the id has a
    configuration or not; after it a Load of the id fails with the error
    of a missing configuration, and the Load of every other id returns what
    it returned before. *)
Theorem Memory_Delete_Load (s : MemoryConfigStorage) (pluginID : string) :
  (Memory_Delete s pluginID).2 = None ∧
  (Memory_Load (Memory_Delete s pluginID).1 pluginID).2
  = inl (ENoConfigurationFound pluginID) ∧
  (∀ other, other ≠ pluginID →
     (Memory_Load (Memory_Delete s pluginID).1 other).2
     = (Memory_Load s other).2).
Proof.
  unfold Memory_Delete, Memory_Load. simpl. split_and!; [done|..].
  - by rewrite lookup_delete_eq.
  - intros other Hne. rewrite lookup_delete_ne by congruence.
    by destruct (configs s !! other).
Qed.

(** X3. On the memory storage, List never fails and leaves the storage as
    it is; the ids it returns are, without repetition, exactly the ids
    whose Load succeeds. So an id is listed after its Save and no longer
    after its Delete, and a new storage lists nothing. *)
Theorem Memory_List_ids (s : MemoryConfigStorage) :
  ∃ ids,
    Memory_List s = (s, inr ids) ∧
    NoDup ids ∧
    (∀ id, id ∈ ids ↔ ∃ config, (Memory_Load s id).2 = inr config) ∧
    (∀ id config ids',
        (Memory_List (Memory_Save s id config).1).2 = inr ids' → id ∈ ids') ∧
    (∀ id ids',
        (Memory_List (Memory_Delete s id).1).2 = inr ids' → id ∉ ids') ∧
    (Memory_List NewMemoryConfigStorage).2 = inr [].
Proof.
  exists (map_to_list (configs s)).*1. split_and!.
  - done.
  - apply NoDup_fst_map_to_list.
  - intros id. unfold Memory_Load.
    rewrite list_elem_of_fmap. split.
    + intros ([k c] & -> & Hkc). apply elem_of_map_to_list in Hkc.
      simpl. rewrite Hkc. eauto.
    + intros [c Hc]. destruct (configs s !! id) as [c'|] eqn:Hl; [|done].
      exists (id, c'). split; [done|]. by apply elem_of_map_to_list.
  - intros id config ids' [= <-]. simpl.
    apply list_elem_of_fmap. exists (id, config). split; [done|].
    apply elem_of_map_to_list. by rewrite lookup_insert_eq.
  - intros id ids' [= <-]. simpl. rewrite list_elem_of_fmap.
    intros ([k c] & -> & Hkc). apply elem_of_map_to_list in Hkc.
    simpl in Hkc. by rewrite lookup_delete_eq in Hkc.
  - simpl. by rewrite map_to_list_empty.
Qed.

(** ** The file storage *)

(** X1 on a new storage: saving the port of one plugin does not give a
    configuration to another. *)
Lemma Memory_Save_Load_witness :
  (Memory_Load (Memory_Save NewMemoryConfigStorage "com.example.web"
                  {["port" := AInt 8080]}).1 "com.example.mail").2
  = (Memory_Load NewMemoryConfigStorage "com.example.mail").2.
Proof.
  apply (Memory_Save_Load NewMemoryConfigStorage "com.example.web"
           {["port" := AInt 8080]}).
  discriminate.
Defined.

(** X2 on the storage of the restarted manager: deleting the configuration
    of another plugin keeps the port. *)
Lemma Memory_Delete_Load_witness :
  (Memory_Load (Memory_Delete (storage restartedManager) "com.example.mail").1
     "com.example.web").2
  = (Memory_Load (storage restartedManager) "com.example.web").2.
Proof.
  apply (Memory_Delete_Load (storage restartedManager) "com.example.mail").
  discriminate.
Defined.

(** X3 on the storage of the restarted manager: the plugin with a saved
    port is listed. *)
Lemma Memory_List_ids_witness :
  ∃ ids, Memory_List (storage restartedManager)
         = (storage restartedManager, inr ids) ∧
         "com.example.web" ∈ ids.
Proof.
  destruct (Memory_List_ids (storage restartedManager))
    as (ids & Hl & _ & Hin & _).
  exists ids. split; [exact Hl|].
  apply Hin. exists {["port" := AInt 8080]}. vm_compute. reflexivity.
Defined.


Section FileStorageMore.
Context {json : EncodingJSON} {fp : PathFilepath}.
Implicit Types (s : JSONFileConfigStorage).

(** X4. On the file storage, a Save with an id that is empty or holds
    "..", "/" or a backslash returns an error and leaves the storage as it
    was: no file is written and no access is made. *)
Theorem JSONFile_Save_rejects_invalid_id s (pluginID : string) (config : ConfigMap) :
  pluginID = "" ∨ strings_Contains pluginID ".." = true
  ∨ strings_Contains pluginID "/" = true
  ∨ strings_Contains pluginID "\" = true →
  ∃ err, JSONFile_Save s pluginID config = (s, Some err).
Proof.
  intros Hbad. apply validatePluginID_spec in Hbad.
  destruct (validatePluginID pluginID) as [err|] eqn:Hv; [|done].
  exists err. by apply JSONFile_Save_invalid_id.
Qed.

(** X5. On the file storage, when the id is valid, the configuration
    marshals to a text that unmarshals to it again, and the file may be
    written, Save succeeds, writes that text to the file of the id and
    nothing else, and a Load of the id then returns the configuration. *)
Theorem JSONFile_Save_Load s (pluginID : string) (config : ConfigMap)
  (data : string) :
  validatePluginID pluginID = None →
  json_MarshalIndent (AMap config) "" "  " = inr data →
  json_Unmarshal data = inr config →
  fs_denied (files s) (configPath s pluginID) = false →
  (JSONFile_Save s pluginID config).2 = None ∧
  fs_files (files (JSONFile_Save s pluginID config).1)
  = <[configPath s pluginID := data]> (fs_files (files s)) ∧
  fs_log (files (JSONFile_Save s pluginID config).1)
  = fs_log (files s) ++ [OpWriteFile (configPath s pluginID) data] ∧
  (JSONFile_Load (JSONFile_Save s pluginID config).1 pluginID).2 = inr config.
Proof.
  intros Hid Hm Hu Hw. unfold JSONFile_Save. rewrite Hid, Hm.
  unfold writeFile. simpl. rewrite Hw. simpl. split_and!; try done.
  unfold JSONFile_Load, readFile, configPath. simpl.
  rewrite lookup_insert_eq. by rewrite Hu.
Qed.

(** X6. On the file storage, a Load returns a configuration exactly when
    the file of the id exists and its content unmarshals to that
    configuration; a missing file gives the error of a failed read and a
    content that does not parse the error of a failed parse. A Load
    changes no file. *)
Theorem JSONFile_Load_result s (pluginID : string) :
  (∀ config,
      (JSONFile_Load s pluginID).2 = inr config ↔
      ∃ data, fs_files (files s) !! configPath s pluginID = Some data ∧
              json_Unmarshal data = inr config) ∧
  (fs_files (files s) !! configPath s pluginID = None →
   ∃ err, (JSONFile_Load s pluginID).2 = inl (EReadConfigFile err)) ∧
  (∀ data err,
      fs_files (files s) !! configPath s pluginID = Some data →
      json_Unmarshal data = inl err →
      (JSONFile_Load s pluginID).2 = inl (EParseConfigJSON err)) ∧
  fs_files (files (JSONFile_Load s pluginID).1) = fs_files (files s).
Proof.
  unfold JSONFile_Load, readFile. simpl.
  destruct (fs_files (files s) !! configPath s pluginID) as [data|] eqn:Hf.
  - destruct (json_Unmarshal data) as [err|config'] eqn:Hu; simpl.
    + split_and!; try done.
      * intros config. split; [done|]. intros (d & [= <-] & Hd). congruence.
      * intros d e [= <-] He. congruence.
    + split_and!; try done.
      * intros config. split.
        -- intros [= <-]. eauto.
        -- intros (d & [= <-] & Hd). congruence.
      * intros d e [= <-] He. congruence.
  - simpl. split_and!; try done.
    + intros config. split; [done|]. by intros (d & ? & _).
    + eauto.
Qed.

(** X7. On the file storage, a Delete of a file that may be removed
    succeeds whether the file exists or not, and after it a Load of the
    same id fails with the error of a failed read. *)
Theorem JSONFile_Delete_Load s (pluginID : string) :
  fs_denied (files s) (configPath s pluginID) = false →
  (JSONFile_Delete s pluginID).2 = None ∧
  fs_files (files (JSONFile_Delete s pluginID).1)
  = delete (configPath s pluginID) (fs_files (files s)) ∧
  ∃ err, (JSONFile_Load (JSONFile_Delete s pluginID).1 pluginID).2
         = inl (EReadConfigFile err).
Proof.
  intros Hw. unfold JSONFile_Delete, removeFile. simpl. rewrite Hw. simpl.
  split_and!; try done.
  unfold JSONFile_Load, readFile, configPath. simpl.
  rewrite lookup_delete_eq. eauto.
Qed.
End FileStorageMore.

(** X4 on the id "../../../evil". *)
Lemma JSONFile_Save_rejects_invalid_id_witness :
  ∃ err, JSONFile_Save (json := refusingJSON) (fp := plainJoin)
           emptyFileStorage "../../../evil" ∅
         = (emptyFileStorage, Some err).
Proof.
  apply (JSONFile_Save_rejects_invalid_id (json := refusingJSON) (fp := plainJoin)).
  right. left. vm_compute. reflexivity.
Defined.

(** X5 on the empty document of the plugin "test-plugin". *)
Lemma JSONFile_Save_Load_witness :
  (JSONFile_Load (json := emptyDocJSON) (fp := plainJoin)
     (JSONFile_Save (json := emptyDocJSON) (fp := plainJoin)
        emptyFileStorage "test-plugin" ∅).1 "test-plugin").2 = inr ∅.
Proof.
  apply (JSONFile_Save_Load (json := emptyDocJSON) (fp := plainJoin)
           emptyFileStorage "test-plugin" ∅ "{}").
  - vm_compute. reflexivity.
  - vm_compute. reflexivity.
  - vm_compute. reflexivity.
  - reflexivity.
Defined.

(** X6 on a storage without the file asked for. *)
Lemma JSONFile_Load_result_witness :
  ∃ err, (JSONFile_Load (json := refusingJSON) (fp := plainJoin)
            emptyFileStorage "test-plugin").2 = inl (EReadConfigFile err).
Proof.
  apply (proj1 (proj2 (JSONFile_Load_result (json := refusingJSON)
                         (fp := plainJoin) emptyFileStorage "test-plugin"))).
  vm_compute. reflexivity.
Defined.

(** X7 on a file that does not exist. *)
Lemma JSONFile_Delete_Load_witness :
  (JSONFile_Delete (fp := plainJoin) emptyFileStorage "test-plugin").2 = None.
Proof.
  apply (JSONFile_Delete_Load (json := refusingJSON) (fp := plainJoin)
           emptyFileStorage "test-plugin").
  reflexivity.
Defined.
(** ** The configuration manager, beyond the claims *)

Section ConfigManagerMore.
Context {json : EncodingJSON} {St : Type} {store : ConfigStorage St}.
Implicit Types (cm : ConfigManager St).

(** X8. When [SetConfig] returns no error, a [GetConfig] of the same id
    returns the value that was set, as it was given, and true; it answers
    from the cache and leaves the manager, its storage included, as it
    is. The cached values of the other ids are those of before. *)
Theorem SetConfig_GetConfig cm (pluginID : string) (config : Any) cm' :
  SetConfig cm pluginID config = (cm', None) →
  GetConfig cm' pluginID = (cm', (config, true)) ∧
  (∀ other, other ≠ pluginID → cache cm' !! other = cache cm !! other) ∧
  schemas cm' = schemas cm.
Proof.
  intros Hset.
  destruct (SetConfig_success _ _ _ _ Hset) as (configMap & _ & _ & ->).
  unfold GetConfig. simpl. rewrite lookup_insert_eq. split_and!; try done.
  intros other Hne. by rewrite lookup_insert_ne by congruence.
Qed.

(** X9. A [GetConfig] that finds nothing in the cache and whose Load
    succeeds returns the loaded map and true, and keeps it in the cache:
    a second [GetConfig] returns the same value and leaves the manager as
    it is, without a second Load. *)
Theorem GetConfig_loads_once cm (pluginID : string) st (configMap : ConfigMap) :
  cache cm !! pluginID = None →
  Load (storage cm) pluginID = (st, inr configMap) →
  let cm1 := (GetConfig cm pluginID).1 in
  GetConfig cm pluginID
  = (mkConfigManager st (schemas cm)
       (<[pluginID := AMap configMap]> (cache cm)), (AMap configMap, true)) ∧
  GetConfig cm1 pluginID = (cm1, (AMap configMap, true)).
Proof.
  intros Hc Hl. cbv zeta.
  assert (Hget : GetConfig cm pluginID
                 = (mkConfigManager st (schemas cm)
                      (<[pluginID := AMap configMap]> (cache cm)),
                    (AMap configMap, true))).
  { unfold GetConfig. by rewrite Hc, Hl. }
  rewrite Hget. split; [done|].
  unfold GetConfig. cbn [fst cache]. by rewrite lookup_insert_eq.
Qed.

(** X10. For an id with no schema [SetConfig] validates nothing: a value
    that is a map is set exactly when the Save of the storage succeeds,
    whatever the map holds. *)
Theorem SetConfig_without_schema cm (pluginID : string) (configMap : ConfigMap) :
  schemas cm !! pluginID = None →
  ((SetConfig cm pluginID (AMap configMap)).2 = None ↔
   (Save (storage cm) pluginID configMap).2 = None) ∧
  ((Save (storage cm) pluginID configMap).2 = None →
   cache (SetConfig cm pluginID (AMap configMap)).1 !! pluginID
   = Some (AMap configMap)).
Proof.
  intros Hs. unfold SetConfig. rewrite Hs. simpl.
  destruct (Save (storage cm) pluginID configMap) as [st [err|]]; simpl.
  - split; [done|]. done.
  - split; [done|]. intros _. by rewrite lookup_insert_eq.
Qed.

(** X11. [RegisterSchema] stores the schema under the id, over any schema
    that was there, and touches neither the other schemas, nor the cache,
    nor the storage: the configuration already set is not validated
    against the new schema, and [GetConfig] answers as before. *)
Theorem RegisterSchema_GetSchema cm (pluginID : string) (schema : ConfigSchema) :
  GetSchema (RegisterSchema cm pluginID schema) pluginID = Some schema ∧
  (∀ other, other ≠ pluginID →
     GetSchema (RegisterSchema cm pluginID schema) other = GetSchema cm other) ∧
  (∀ schema0,
     RegisterSchema (RegisterSchema cm pluginID schema0) pluginID schema
     = RegisterSchema cm pluginID schema) ∧
  cache (RegisterSchema cm pluginID schema) = cache cm ∧
  storage (RegisterSchema cm pluginID schema) = storage cm ∧
  (∀ id, (GetConfig (RegisterSchema cm pluginID schema) id).2
         = (GetConfig cm id).2).
Proof.
  unfold GetSchema, RegisterSchema. simpl. split_and!; try done.
  - by rewrite lookup_insert_eq.
  - intros other Hne. by rewrite lookup_insert_ne by congruence.
  - intros schema0. by rewrite insert_insert_eq.
  - intros id. unfold GetConfig. simpl.
    destruct (cache cm !! id); [done|].
    by destruct (Load (storage cm) id) as [st [e|m]].
Qed.

(** X12. [LoadConfig] of an id with no cached and no stored configuration
    returns the error of a missing configuration and leaves the target as
    it is. After a [SetConfig] that succeeded, it hands to the decoder the
    text the value marshals to, and returns what the decoder returns. *)
Theorem LoadConfig_after_SetConfig {T : Type} cm (pluginID : string)
  (unmarshalInto : string → T → T * option Err) (target : T) :
  (∀ st err,
      cache cm !! pluginID = None →
      Load (storage cm) pluginID = (st, inl err) →
      (LoadConfig cm pluginID unmarshalInto target).2
      = (target, Some (ENoConfiguration pluginID))) ∧
  (∀ config cm' jsonData,
      SetConfig cm pluginID config = (cm', None) →
      json_Marshal config = inr jsonData →
      LoadConfig cm' pluginID unmarshalInto target
      = (cm', unmarshalInto jsonData target)).
Proof.
  split.
  - intros st err Hc Hl. unfold LoadConfig.
    by rewrite (GetConfig_miss cm pluginID st err Hc Hl).
  - intros config cm' jsonData Hset Hm. unfold LoadConfig.
    destruct (SetConfig_success _ _ _ _ Hset) as (configMap & _ & _ & ->).
    unfold GetConfig. cbn [cache]. rewrite lookup_insert_eq. by rewrite Hm.
Qed.
End ConfigManagerMore.

(** X11 on the restarted manager: a schema registered for one plugin is
    not the schema of another. *)
Lemma RegisterSchema_GetSchema_witness :
  GetSchema (RegisterSchema restartedManager "com.example.web"
               (mkConfigSchema [])) "com.example.mail"
  = GetSchema restartedManager "com.example.mail".
Proof.
  apply (RegisterSchema_GetSchema restartedManager "com.example.web"
           (mkConfigSchema [])).
  discriminate.
Defined.

(** X8 on the port schema: the port 9090 is set and read back. *)
Lemma SetConfig_GetConfig_witness :
  GetConfig (SetConfig (json := refusingJSON) portManager "com.example.web"
               (portConfig 9090)).1 "com.example.web"
  = ((SetConfig (json := refusingJSON) portManager "com.example.web"
        (portConfig 9090)).1, (portConfig 9090, true)).
Proof.
  apply (SetConfig_GetConfig (json := refusingJSON) portManager
           "com.example.web" (portConfig 9090)).
  vm_compute. reflexivity.
Defined.

(** X9 on a manager started on a storage that holds a configuration. *)
Lemma GetConfig_loads_once_witness :
  (GetConfig restartedManager "com.example.web").2
  = (AMap {["port" := AInt 8080]}, true).
Proof.
  pose proof (GetConfig_loads_once restartedManager "com.example.web"
                (storage restartedManager) {["port" := AInt 8080]}
                eq_refl eq_refl) as [H _].
  rewrite H. reflexivity.
Defined.

(** X10 on a new manager and the map with a port. *)
Lemma SetConfig_without_schema_witness :
  (SetConfig (json := refusingJSON)
     (NewConfigManagerWithStorage NewMemoryConfigStorage) "com.example.web"
     (AMap {["port" := AInt 70000]})).2 = None.
Proof.
  apply (proj1 (SetConfig_without_schema (json := refusingJSON)
                  (NewConfigManagerWithStorage NewMemoryConfigStorage)
                  "com.example.web" {["port" := AInt 70000]} eq_refl)).
  reflexivity.
Defined.

(** X12 on a manager with nothing set. *)
Lemma LoadConfig_after_SetConfig_witness :
  (LoadConfig (json := refusingJSON)
     (NewConfigManagerWithStorage NewMemoryConfigStorage) "com.example.web"
     (λ data (t : nat), (S t, None)) 0).2
  = (0, Some (ENoConfiguration "com.example.web")).
Proof.
  apply (proj1 (LoadConfig_after_SetConfig (json := refusingJSON)
                  (NewConfigManagerWithStorage NewMemoryConfigStorage)
                  "com.example.web" (λ data (t : nat), (S t, None)) 0)
           NewMemoryConfigStorage (ENoConfigurationFound "com.example.web")).
  - reflexivity.
  - reflexivity.
Defined.

(** ** Validation, beyond the claims *)

(** X13. The validation of a configuration against the fields of a schema
    passes exactly when every field passes its own check. A required field
    that is missing from the configuration, or present with the value nil,
    makes it fail; a field that is not required and is missing passes,
    whatever its type and its validation rules. *)
Theorem validateFields_required (configMap : ConfigMap) (fields : list ConfigField) :
  (validateFields configMap fields = None ↔
   Forall (λ f, validateConfigField configMap f = None) fields) ∧
  (∀ field,
      field ∈ fields → cf_Required field = true →
      configMap !! cf_Name field = None ∨ configMap !! cf_Name field = Some ANil →
      ∃ err, validateFields configMap fields = Some err) ∧
  (∀ field,
      cf_Required field = false → configMap !! cf_Name field = None →
      validateConfigField configMap field = None).
Proof.
  split_and!.
  - apply validateFields_all_pass.
  - intros field Hin Hreq Hmiss.
    destruct (validateFields configMap fields) as [err|] eqn:Hv; [eauto|].
    apply validateFields_all_pass in Hv.
    rewrite Forall_forall in Hv. specialize (Hv field Hin).
    unfold validateConfigField in Hv. rewrite Hreq in Hv.
    destruct Hmiss as [Hm|Hm]; rewrite Hm in Hv; done.
  - intros field Hreq Hmiss. unfold validateConfigField.
    by rewrite Hmiss, Hreq.
Qed.

(** X13 on the port schema and the empty configuration. *)
Lemma validateFields_required_witness :
  ∃ err, validateFields ∅ (Fields portSchema) = Some err.
Proof.
  refine (proj1 (proj2 (validateFields_required ∅ (Fields portSchema)))
            (mkConfigField "port" "number" "Port" "" ANil true []
               (Some (mkValidation (Some 1%float) (Some 65535%float) None None "")))
            _ eq_refl _).
  - left.
  - left. reflexivity.
Defined.

Lemma isValidOption_spec (v : Any) (options : list Option) :
  isValidOption v options = true ↔ isOption options v.
Proof.
  unfold isValidOption, isOption. destruct v; try (split; [done|by intros (? & ? & ? & _)]).
  rewrite existsb_exists. split.
  - intros (opt & Hin & Heq). apply String.eqb_eq in Heq.
    exists s, opt. by rewrite list_elem_of_In.
  - intros (s' & opt & [= <-] & Hin & Heq). exists opt.
    rewrite <- list_elem_of_In. split; [done|]. by apply String.eqb_eq.
Qed.

Lemma firstInvalidOption_spec (values : list Any) (options : list Option) :
  firstInvalidOption values options = None ↔ Forall (isOption options) values.
Proof.
  induction values as [|v values IH]; simpl; [by split; [constructor|]|].
  destruct (isValidOption v options) eqn:Hv.
  - rewrite IH. apply isValidOption_spec in Hv. split; [by constructor|].
    by intros [_ ?]%Forall_cons.
  - split; [done|]. intros [Hopt _]%Forall_cons.
    apply isValidOption_spec in Hopt. congruence.
Qed.

(** X14. A field of type "select" accepts exactly the strings that are
    the value of one of its options. A field of type "multiselect"
    accepts exactly the values of type [[]interface{}] whose elements are
    all such strings: the empty one passes, and one with an element
    outside the options is refused with that element, the first one in
    the list, in the error. A slice of another type, such as a
    [[]string], is refused as not being an array, whatever it holds. *)
Theorem validateField_choices (value : Any) (field : ConfigField) :
  (cf_Type field = "select" →
   (validateField value field = None ↔ isOption (cf_Options field) value)) ∧
  (cf_Type field = "multiselect" →
   (validateField value field = None ↔
    ∃ values, value = AList values ∧ Forall (isOption (cf_Options field)) values) ∧
   (∀ good bad rest,
       value = AList (good ++ bad :: rest) →
       Forall (isOption (cf_Options field)) good →
       ¬ isOption (cf_Options field) bad →
       validateField value field = Some (EInvalidOptionValue bad)) ∧
   (∀ elem values,
       validateField (ASlice elem values) field = Some EExpectedArray)).
Proof.
  split.
  - intros Hty. unfold validateField. rewrite Hty. simpl.
    rewrite <- isValidOption_spec.
    by destruct (isValidOption value (cf_Options field)).
  - intros Hty. unfold validateField. rewrite Hty. simpl. split_and!; [| |done].
    + destruct value as [| | | | |l| | |];
        try (split; [done|by intros (? & ? & _)]).
      destruct (firstInvalidOption l (cf_Options field)) eqn:Hf.
      * split; [done|]. intros (values & [= <-] & Hall).
        apply firstInvalidOption_spec in Hall. congruence.
      * split; [|done]. intros _. exists l. split; [done|].
        by apply firstInvalidOption_spec.
    + intros good bad rest -> Hgood Hbad.
      assert (firstInvalidOption (good ++ bad :: rest) (cf_Options field)
              = Some bad) as ->; [|done].
      induction Hgood as [|v good Hv _ IH]; simpl.
      * destruct (isValidOption bad (cf_Options field)) eqn:Hb; [|done].
        by apply isValidOption_spec in Hb.
      * apply isValidOption_spec in Hv. by rewrite Hv.
Qed.

(** X14 on the roles admin, user and guest. *)
Lemma validateField_choices_witness :
  validateField (AList [AString "admin"; AString "superuser"]) rolesField
  = Some (EInvalidOptionValue (AString "superuser")).
Proof.
  refine (proj1 (proj2 (proj2 (validateField_choices
                                 (AList [AString "admin"; AString "superuser"])
                                 rolesField) eq_refl))
            [AString "admin"] (AString "superuser") [] eq_refl _ _).
  - constructor; [|constructor].
    exists "admin", (mkOption "admin" "Admin"). split; [done|].
    split; [left|done].
  - intros (s & opt & [= <-] & Hin & Heq).
    unfold rolesField, roleOptions in Hin. simpl in Hin.
    repeat (apply elem_of_cons in Hin as [->|Hin]; [by vm_compute in Heq|]).
    by apply elem_of_nil in Hin.
Defined.

(** X15. A field whose type is none of "string", "number", "boolean",
    "select" and "multiselect" is not checked at all: every value passes,
    whatever the validation rules and the options of the field. A field of
    type "boolean" accepts the booleans and nothing else. *)
Theorem validateField_unknown_type (value : Any) (field : ConfigField) :
  (cf_Type field ∉ knownTypes → validateField value field = None) ∧
  (cf_Type field = "boolean" →
   (validateField value field = None ↔ ∃ b, value = ABool b)).
Proof.
  split.
  - intros Hty. unfold validateField, knownTypes in *.
    destruct (String.eqb_spec (cf_Type field) "string") as [Heq|_];
      [exfalso; apply Hty; rewrite Heq; set_solver|].
    destruct (String.eqb_spec (cf_Type field) "number") as [Heq|_];
      [exfalso; apply Hty; rewrite Heq; set_solver|].
    destruct (String.eqb_spec (cf_Type field) "boolean") as [Heq|_];
      [exfalso; apply Hty; rewrite Heq; set_solver|].
    destruct (String.eqb_spec (cf_Type field) "select") as [Heq|_];
      [exfalso; apply Hty; rewrite Heq; set_solver|].
    destruct (String.eqb_spec (cf_Type field) "multiselect") as [Heq|_];
      [exfalso; apply Hty; rewrite Heq; set_solver|].
    done.
  - intros Hty. unfold validateField. rewrite Hty. simpl.
    destruct value; split; try done; try (by intros [? ?]); eauto.
Qed.

(** X15 on a field of the type "int", which the runtime does not know. *)
Lemma validateField_unknown_type_witness :
  validateField (AString "not-a-number")
    (mkConfigField "port" "int" "" "" ANil true []
       (Some (mkValidation (Some 1%float) (Some 65535%float) None None "")))
  = None.
Proof.
  apply (proj1 (validateField_unknown_type (AString "not-a-number")
                  (mkConfigField "port" "int" "" "" ANil true []
                     (Some (mkValidation (Some 1%float) (Some 65535%float)
                              None None ""))))).
  unfold knownTypes. simpl. intros Hin.
  repeat (apply elem_of_cons in Hin as [Hin|Hin]; [discriminate Hin|]).
  by apply elem_of_nil in Hin.
Defined.

(** X16. A number field with a minimum and a maximum accepts a number
    exactly when it is neither smaller than the minimum nor greater than
    the maximum in the order of float64, so the bounds themselves pass;
    a value that is not a number is refused. The value NaN compares as
    neither smaller nor greater, and passes every pair of bounds. *)
Theorem validateField_number_bounds (min max : float) :
  (∀ value num,
      toFloat64 value = Some num →
      (validateField value (numberField min max) = None ↔
       PrimFloat.ltb num min = false ∧ PrimFloat.ltb max num = false)) ∧
  (∀ value, toFloat64 value = None →
            validateField value (numberField min max) = Some EExpectedNumber) ∧
  validateField (AFloat nan) (numberField min max) = None.
Proof.
  split_and!.
  - intros value num Hnum. unfold validateField, numberField, andThen. simpl.
    rewrite Hnum.
    destruct (PrimFloat.ltb num min), (PrimFloat.ltb max num); split; try done;
      by intros [? ?].
  - intros value Hnum. unfold validateField, numberField. simpl. by rewrite Hnum.
  - unfold validateField, numberField, andThen. simpl.
    rewrite !ltb_spec.
    assert (Hnan : Prim2SF nan = S754_nan) by (vm_compute; reflexivity).
    rewrite Hnan.
    assert (H1 : SFltb S754_nan (Prim2SF min) = false) by done.
    assert (H2 : SFltb (Prim2SF max) S754_nan = false).
    { unfold SFltb, SFcompare. by destruct (Prim2SF max). }
    by rewrite H1, H2.
Qed.

(** X16 on the bounds 1 and 65535 and the port 65535. *)
Lemma validateField_number_bounds_witness :
  validateField (AInt 65535) (numberField 1%float 65535%float) = None.
Proof.
  apply (proj1 (validateField_number_bounds 1%float 65535%float)
           (AInt 65535) 65535%float).
  - vm_compute. reflexivity.
  - split; vm_compute; reflexivity.
Defined.

(** ** Schemas generated from a struct *)

Lemma schemaFields_cons (field : StructField) (t : list StructField) :
  schemaFields (field :: t)
  = if isSchemaField field
    then mkConfigField (Tag_Get field "json") (getFieldType (sf_Kind field))
           (Tag_Get field "label") (Tag_Get field "description")
           (if String.eqb (Tag_Get field "default") "" then ANil
            else AString (Tag_Get field "default"))
           (String.eqb (Tag_Get field "required") "true") [] None
         :: schemaFields t
    else schemaFields t.
Proof.
  unfold isSchemaField. simpl.
  destruct (sf_IsExported field); simpl; [|done].
  by destruct (String.eqb (Tag_Get field "json") "-").
Qed.

Lemma schemaFields_shape (t : list StructField) :
  Forall (λ field,
            cf_Type field ∈ ["string"; "number"; "boolean"; "multiselect"] ∧
            cf_Options field = [] ∧ cf_Validation field = None)
         (schemaFields t).
Proof.
  induction t as [|field t IH]; [constructor|].
  rewrite schemaFields_cons. destruct (isSchemaField field); [|done].
  constructor; [|done]. cbn.
  split; [|done]. destruct (sf_Kind field); cbn; set_solver.
Qed.

(** X17. The schema generated from a struct has one field for each field
    of the struct that is exported and whose json tag is not "-", in the
    order of the struct, named by the json tag as it is written (the empty
    name when the struct field has no json tag). A generated field is
    required exactly when the tag "required" is "true"; its type is one of
    "string", "number", "boolean" and "multiselect"; and it has no options
    and no validation rules. *)
Theorem GenerateSchemaFromStruct_fields (t : list StructField) :
  cf_Name <$> Fields (GenerateSchemaFromStruct t)
  = (λ f, Tag_Get f "json") <$> filter (λ f, isSchemaField f = true) t ∧
  cf_Required <$> Fields (GenerateSchemaFromStruct t)
  = (λ f, String.eqb (Tag_Get f "required") "true")
      <$> filter (λ f, isSchemaField f = true) t ∧
  Forall (λ field,
            cf_Type field ∈ ["string"; "number"; "boolean"; "multiselect"] ∧
            cf_Options field = [] ∧ cf_Validation field = None)
         (Fields (GenerateSchemaFromStruct t)).
Proof.
  unfold GenerateSchemaFromStruct. cbn [Fields].
  split_and!; [..|apply schemaFields_shape].
  - induction t as [|field t IH]; [done|].
    rewrite schemaFields_cons, filter_cons.
    destruct (isSchemaField field) eqn:Hf.
    + rewrite decide_True by done. by rewrite !fmap_cons, IH.
    + by rewrite decide_False by done.
  - induction t as [|field t IH]; [done|].
    rewrite schemaFields_cons, filter_cons.
    destruct (isSchemaField field) eqn:Hf.
    + rewrite decide_True by done. by rewrite !fmap_cons, IH.
    + by rewrite decide_False by done.
Qed.

(** The fields of the sample struct that reach the schema. *)
Example GenerateSchemaFromStruct_sample :
  (λ f, (cf_Name f, cf_Type f, cf_Required f, cf_Default f))
    <$> Fields (GenerateSchemaFromStruct sampleStruct)
  = [("host", "string", true, ANil);
     ("port", "number", false, AString "8080");
     ("tags", "multiselect", false, ANil)].
Proof. vm_compute. reflexivity. Qed.

(** X18. In a schema generated from a struct no field has the type
    "select", and a field of type "multiselect" (a slice in the struct)
    has no options: the only value it accepts is the empty
    [[]interface{}]. A slice of the type of the struct field, such as an
    empty [[]string], is refused. A generated number field has no bounds
    and accepts every number. *)
Theorem GenerateSchemaFromStruct_multiselect (t : list StructField)
  (field : ConfigField) (value : Any) :
  field ∈ Fields (GenerateSchemaFromStruct t) →
  cf_Type field ≠ "select" ∧
  (cf_Type field = "multiselect" →
   (validateField value field = None ↔ value = AList []) ∧
   (∀ elem values,
       validateField (ASlice elem values) field = Some EExpectedArray)) ∧
  (cf_Type field = "number" →
   (validateField value field = None ↔ ∃ num, toFloat64 value = Some num)).
Proof.
  intros Hin.
  pose proof (schemaFields_shape t) as Hall.
  rewrite Forall_forall in Hall. destruct (Hall field Hin) as (Hty & Hopt & Hval).
  split_and!.
  - intros Heq. rewrite Heq in Hty.
    repeat (apply elem_of_cons in Hty as [Hty|Hty]; [discriminate Hty|]).
    by apply elem_of_nil in Hty.
  - intros Hms.
    unfold validateField. rewrite Hms, Hopt. simpl. split; [|done].
    destruct value as [| | | | |values| | |]; try done.
    destruct values as [|v values]; [done|]. simpl.
    assert (isValidOption v [] = false) as ->; [|done].
    unfold isValidOption. by destruct v.
  - intros Hnum. unfold validateField. rewrite Hnum, Hval. simpl.
    destruct (toFloat64 value) as [num|]; split; try done; eauto.
    by intros [? ?].
Qed.

(** X18 on the field "tags" of the sample struct: neither a list with a
    tag nor an empty [[]string] passes. *)
Lemma GenerateSchemaFromStruct_multiselect_witness :
  validateField (AList [AString "go"])
    (mkConfigField "tags" "multiselect" "" "" ANil false [] None) ≠ None ∧
  validateField (ASlice "string" [])
    (mkConfigField "tags" "multiselect" "" "" ANil false [] None)
  = Some EExpectedArray.
Proof.
  pose proof (GenerateSchemaFromStruct_multiselect sampleStruct
                (mkConfigField "tags" "multiselect" "" "" ANil false [] None)
                (AList [AString "go"])) as H.
  destruct H as (_ & Hms & _).
  - vm_compute. do 2 right. left.
  - destruct (Hms eq_refl) as [Hlist Hslice]. split.
    + intros Hnone. apply Hlist in Hnone. discriminate Hnone.
    + apply Hslice.
Defined.

(** ** The registry, beyond the claims *)

Section RegistryMore.
Context {json : EncodingJSON} {W St : Type} {store : ConfigStorage St}.
Implicit Types (r : @Registry W St) (p : @Plugin W).

Lemma registered_services r p :
  services (registered r p)
  = match p_Service p with
    | Some service => <[p_ID p := service]> (services r)
    | None => services r
    end.
Proof.
  unfold registered. rewrite foldl_registerRoute. simpl. by destruct (router r).
Qed.

Lemma Register_success r p r' :
  Register r p = (r', None) → r' = registered r p.
Proof.
  destruct (Register_cases r p) as [[_ H]|[(_ & dep & _ & _ & H)|(_ & _ & H)]];
    rewrite H; by intros [= <-].
Qed.

(** X19. After a [Register] that succeeds, [Get] of the id of the plugin
    returns the plugin, [GetService] of the id returns its service when it
    has one, [GetSchema] returns the schema generated from its
    configuration struct, and the plugin is not enabled unless the id was
    marked started before. [Get] and [GetService] of every other id answer
    as before. *)
Theorem Register_then_Get r p r' :
  Register r p = (r', None) →
  Get r' (p_ID p) = inr p ∧
  (∀ service, p_Service p = Some service →
              GetService r' (p_ID p) = Some service) ∧
  GetSchema (configManager r') (p_ID p)
  = Some (GenerateSchemaFromStruct (p_Config p)) ∧
  (∀ id, IsEnabled r' id = IsEnabled r id) ∧
  (∀ other, other ≠ p_ID p →
     Get r' other = Get r other ∧ GetService r' other = GetService r other).
Proof.
  intros Hreg. apply Register_success in Hreg as ->.
  unfold Get, GetService, GetSchema, IsEnabled.
  rewrite registered_plugins, registered_services, registered_configManager.
  destruct (registered_flags r p) as [_ ->].
  split_and!.
  - by rewrite lookup_insert_eq.
  - intros service ->. by rewrite lookup_insert_eq.
  - unfold RegisterSchema. simpl. by rewrite lookup_insert_eq.
  - done.
  - intros other Hne. rewrite lookup_insert_ne by congruence. split; [done|].
    destruct (p_Service p); [|done]. by rewrite lookup_insert_ne by congruence.
Qed.

(** X20. A [Register] that succeeds on a registry with a router binds the
    routes of the plugin at once, on that router, and queues nothing: the
    plain routes first, then the admin routes with "/admin" before their
    path, each under its own method (any method the switch does not know
    goes to HandleFunc). On a registry without a router it binds nothing
    and puts the same routes at the end of the queue. The handler bound
    for a route is its handler inside its middlewares, the first
    middleware outermost. *)
Theorem Register_binds_with_router r p r' :
  Register r p = (r', None) →
  (∀ ref, router r = Some ref →
     routes r' = routes r ∧
     bound r' = bound r ++ (bindingOf ref <$> contributedRoutes p) ∧
     b_pattern <$> (bindingOf ref <$> contributedRoutes p)
     = (rt_Path <$> default [] (p_Routes p))
       ++ ((λ route, "/admin" +:+ rt_Path route) <$> default [] (p_AdminRoutes p))) ∧
  (router r = None →
     bound r' = bound r ∧ routes r' = routes r ++ contributedRoutes p) ∧
  (∀ ref route mw mws req,
     rt_Middlewares route = mw :: mws →
     b_handler (bindingOf ref route) req
     = mw (applyMiddlewares mws (rt_Handler route)) req).
Proof.
  intros Hreg. apply Register_success in Hreg as ->.
  destruct (registered_routes r p) as [_ Hplaced].
  split_and!.
  - intros ref Href. rewrite Href in Hplaced. destruct Hplaced as [-> ->].
    split_and!; try done.
    unfold contributedRoutes. rewrite !fmap_app, <- !list_fmap_compose.
    f_equal.
  - intros Hnone. rewrite Hnone in Hplaced. by destruct Hplaced as [-> ->].
  - intros ref route mw mws req Hmw. unfold bindingOf. simpl. by rewrite Hmw.
Qed.

Lemma registerSeq_accepted_hooks r (ps : list (@Plugin W)) hookName :
  handlersOf (registerSeq r ps).1 hookName
  = handlersOf r hookName
    ++ concat ((λ p, handlerOf p hookName) <$> accepted r ps).
Proof.
  revert r. induction ps as [|p ps IH]; intros r.
  - simpl. by rewrite app_nil_r.
  - rewrite registerSeq_cons. cbn [fst accepted]. rewrite IH.
    destruct (Register r p) as [r1 [e|]] eqn:Hreg; cbn [fst snd].
    + by rewrite (Register_failure_unchanged r p r1 e Hreg).
    + rewrite (Register_hooks r p r1 hookName Hreg).
      rewrite fmap_cons. simpl. by rewrite <- app_assoc.
Qed.

(** X21. After any sequence of [Register] calls on a new registry, the
    handlers held for a hook name are those of the plugins that were
    accepted, one for each plugin that brings a handler for the name, in
    the order of the calls; plugins that were refused contribute none.
    [ExecuteHook] on a name for which no accepted plugin brought a handler
    returns the value it was given and no error. *)
Theorem hooks_in_registration_order (router : option RouterRef) (st : St)
  (ps : list (@Plugin W)) (hookName : string) :
  let r0 : @Registry W St := NewRegistry router st in
  handlersOf (registerSeq r0 ps).1 hookName
  = concat ((λ p, handlerOf p hookName) <$> accepted r0 ps) ∧
  (Forall (λ p, handlerOf p hookName = []) (accepted r0 ps) →
   ∀ w data, ExecuteHook (registerSeq r0 ps).1 w hookName data = (w, (data, None))).
Proof.
  intros r0.
  assert (Hh : handlersOf (registerSeq r0 ps).1 hookName
               = concat ((λ p, handlerOf p hookName) <$> accepted r0 ps)).
  { rewrite registerSeq_accepted_hooks. unfold r0, handlersOf. simpl.
    by rewrite lookup_empty. }
  split; [done|].
  intros Hnone w data. unfold ExecuteHook.
  fold (handlersOf (registerSeq r0 ps).1 hookName). rewrite Hh.
  assert (concat ((λ p, handlerOf p hookName) <$> accepted r0 ps) = []) as ->;
    [|done].
  clear Hh. revert Hnone. generalize (accepted r0 ps). intros l Hnone.
  induction Hnone as [|p l Hp _ IH]; [done|].
  rewrite fmap_cons. cbn [concat]. by rewrite Hp, IH.
Qed.
End RegistryMore.

(** X19 on a plugin with a service. *)
Lemma Register_then_Get_witness :
  GetService (Register (json := refusingJSON) emptyRegistry servicePlugin).1
    "com.example.mail" = Some (AString "mailer").
Proof.
  refine (proj1 (proj2 (Register_then_Get (json := refusingJSON) emptyRegistry
                          servicePlugin _ _)) (AString "mailer") eq_refl).
  vm_compute. reflexivity.
Defined.

(** X20 on a registry with the router 7. *)
Lemma Register_binds_with_router_witness :
  b_pattern <$> bound (Register (json := refusingJSON) routedRegistry servicePlugin).1
  = ["/mail"; "/admin/mail"] ∧
  b_verb <$> bound (Register (json := refusingJSON) routedRegistry servicePlugin).1
  = [VGet; VHandleFunc].
Proof.
  destruct (Register_binds_with_router (json := refusingJSON) routedRegistry
              servicePlugin
              (Register (json := refusingJSON) routedRegistry servicePlugin).1)
    as (Hb & _).
  - vm_compute. reflexivity.
  - destruct (Hb 7 eq_refl) as (_ & -> & _). split; vm_compute; reflexivity.
Defined.

(** The handler bound for the route of the witness: the first middleware
    is the outermost. *)
Example bound_handler_middleware_order :
  (λ b, res_Body (b_handler b (mkRequest "GET" "/mail")))
    <$> bound (Register (json := refusingJSON) routedRegistry servicePlugin).1
  = ["a:b:hello"; "hello"].
Proof. vm_compute. reflexivity. Qed.

(** X21 on the two hook plugins of the claims and a refused one between
    them. *)
Lemma hooks_in_registration_order_witness :
  ExecuteHook
    (registerSeq (json := refusingJSON) emptyRegistry
       [hookPlugin "com.example.a" (appendHandler "|A");
        hookPlugin "com.example.a" (appendHandler "|dup");
        hookPlugin "com.example.b" (appendHandler "|B")]).1
    () "after_save" (AString "x")
  = ((), (AString "x", None)).
Proof.
  refine (proj2 (hooks_in_registration_order (json := refusingJSON) (W := unit)
                   None NewMemoryConfigStorage
                   [hookPlugin "com.example.a" (appendHandler "|A");
                    hookPlugin "com.example.a" (appendHandler "|dup");
                    hookPlugin "com.example.b" (appendHandler "|B")]
                   "after_save") _ () (AString "x")).
  vm_compute. repeat constructor.
Defined.

(** The chain of the scenario: A then B, the refused duplicate left out. *)
Example hook_chain_scenario :
  ExecuteHook
    (registerSeq (json := refusingJSON) emptyRegistry
       [hookPlugin "com.example.a" (appendHandler "|A");
        hookPlugin "com.example.a" (appendHandler "|dup");
        hookPlugin "com.example.b" (appendHandler "|B")]).1
    () "before_save" (AString "x")
  = ((), (AString "x|A|B", None)).
Proof. vm_compute. reflexivity. Qed.

(** ** The lifecycle, beyond the claims *)

Section LifecycleMore.
Context {json : EncodingJSON} {W St : Type} {store : ConfigStorage St}.
Implicit Types (r : @Registry W St) (s : @Run W St) (visit : list (@Plugin W)).

(** X22. An [Initialize] over plugins that are all initialized already,
    and a [Start] over plugins that are all started already, call no
    method, return no error and leave the run as it is, at any depth of
    recursion from one on. *)
Theorem lifecycle_rerun_is_noop (fuel : nat) visit s :
  ((∀ p, p ∈ visit → default false (initialized (run_reg s) !! p_ID p) = true) →
   Initialize (S fuel) visit s = Some (s, None)) ∧
  ((∀ p, p ∈ visit → IsEnabled (run_reg s) (p_ID p) = true) →
   Start (S fuel) visit s = Some (s, None)).
Proof.
  split; intros Hall.
  - unfold Initialize.
    rewrite (each_ext _ _ _ _ (initializePlugin_advance (S fuel))).
    by apply advance_all_flagged.
  - unfold Start.
    rewrite (each_ext _ _ _ _ (startPlugin_advance (S fuel))).
    by apply advance_all_flagged.
Qed.



(** X25. After a [Stop] over plugins with distinct ids, a second [Stop]
    over the same plugins calls no method and returns no error. *)
Theorem Stop_twice visit s :
  NoDup (p_ID <$> visit) →
  run_calls (Stop visit (Stop visit s).1).1 = run_calls (Stop visit s).1 ∧
  (Stop visit (Stop visit s).1).2 = None.
Proof.
  intros Hnd.
  assert (Hfirst : ∀ p, p ∈ visit →
            IsEnabled (run_reg (Stop visit s).1) (p_ID p) = false).
  { destruct (stopPlugins_spec visit s [] Hnd) as (calls & _ & _ & _ & _ & Hen & _).
    intros p Hp. unfold Stop.
    destruct (stopPlugins visit s []) as [s1 errs]. cbn [fst] in *.
    assert (Hs1 : ∀ b : bool, (if b then (s1, Some (EStopErrors errs)) else (s1, None)).1 = s1)
      by (by intros []).
    rewrite Hs1, Hen.
    rewrite (bool_decide_eq_false_2 (_ ∉ _)); [by rewrite andb_false_r|].
    intros Hnotin. apply Hnotin. by apply list_elem_of_fmap_2. }
  destruct (stopPlugins_spec visit (Stop visit s).1 [] Hnd)
    as (calls & Hc & Hids & _ & Herr & _).
  assert (Hnil : calls = []).
  { apply (fmap_nil_inv call_id).
    rewrite Hids.
    assert (filter (λ p, IsEnabled (run_reg (Stop visit s).1) (p_ID p) = true) visit
            = []) as ->; [|done].
    clear -Hfirst. revert Hfirst. generalize (run_reg (Stop visit s).1).
    intros r1 Hfirst. induction visit as [|p visit IH]; [done|].
    rewrite filter_cons. rewrite decide_False.
    - apply IH. intros q Hq. apply Hfirst. by right.
    - rewrite Hfirst by left. done. }
  subst calls. rewrite app_nil_r in Hc. simpl in Herr.
  clear Hfirst Hids. revert Hc Herr. generalize (Stop visit s).1. intros s1 Hc Herr.
  unfold Stop. destruct (stopPlugins visit s1 []) as [s2 errs].
  cbn [fst snd] in *. by subst errs.
Qed.
End LifecycleMore.

Lemma chainRegistry_reachable : Reachable (json := refusingJSON) chainRegistry.
Proof.
  apply (Reachable_register
           (Register (json := refusingJSON) emptyRegistry (basePlugin "A" [])).1
           (basePlugin "B" ["A"])).
  - apply (Reachable_register emptyRegistry (basePlugin "A" [])).
    + apply Reachable_new.
    + vm_compute. reflexivity.
  - vm_compute. reflexivity.
Qed.

(** X22 on the two started plugins of the claims. *)
Lemma lifecycle_rerun_is_noop_witness :
  Start 1 stopVisit startedRun = Some (startedRun, None).
Proof.
  apply (proj2 (lifecycle_rerun_is_noop 0 stopVisit startedRun)).
  intros p Hp.
  repeat (apply elem_of_cons in Hp as [->|Hp]; [vm_compute; reflexivity|]).
  by apply elem_of_nil in Hp.
Defined.



(** X25 on the two started plugins of the claims. *)
Lemma Stop_twice_witness :
  (Stop stopVisit (Stop stopVisit startedRun).1).2 = None.
Proof.
  apply (Stop_twice stopVisit startedRun).
  apply (bool_decide_unpack (NoDup (p_ID <$> stopVisit))). vm_compute. exact I.
Defined.

(** ** The channel of events *)

(** X26. [EmitEvent] never holds more than the capacity of the channel,
    100 events: with room left the event goes to the end of the queue,
    and on a full queue it is dropped and the queue is as it was. Of a
    burst of events emitted on an empty channel, with nobody receiving,
    the first 100 are kept in the order they were emitted and the rest
    are dropped. *)
Theorem EmitEvent_bounded (events : list Event) (event : Event) :
  (length events ≤ eventCapacity → length (EmitEvent events event) ≤ eventCapacity) ∧
  (length events < eventCapacity → EmitEvent events event = events ++ [event]) ∧
  (eventCapacity ≤ length events → EmitEvent events event = events) ∧
  (∀ burst, foldl EmitEvent [] burst = take eventCapacity burst).
Proof.
  unfold EmitEvent. split_and!.
  - intros Hle. destruct (Nat.ltb_spec (length events) eventCapacity); [|done].
    rewrite length_app. simpl. lia.
  - intros Hlt. by rewrite (proj2 (Nat.ltb_lt _ _) Hlt).
  - intros Hge. by rewrite (proj2 (Nat.ltb_ge _ _) Hge).
  - intros burst.
    assert (Hgen : ∀ queue : list Event,
              length queue ≤ eventCapacity →
              foldl (λ events event,
                       if length events <? eventCapacity then events ++ [event]
                       else events) queue burst
              = queue ++ take (eventCapacity - length queue) burst).
    { induction burst as [|e burst IH]; intros queue Hq.
      - simpl. by rewrite take_nil, app_nil_r.
      - simpl. destruct (Nat.ltb_spec (length queue) eventCapacity) as [Hlt|Hge].
        + rewrite IH by (rewrite length_app; simpl; lia).
          rewrite length_app. simpl. rewrite <- app_assoc. f_equal.
          replace (eventCapacity - length queue)
            with (S (eventCapacity - (length queue + 1))) by lia.
          done.
        + rewrite IH by done.
          replace (eventCapacity - length queue) with 0 by lia. done. }
    rewrite (Hgen []); [done|]. simpl. lia.
Qed.

(** X26 on a queue with one event. *)
Lemma EmitEvent_bounded_witness :
  EmitEvent [mkEvent "user.created" "com.example.a" ANil]
    (mkEvent "user.deleted" "com.example.a" ANil)
  = [mkEvent "user.created" "com.example.a" ANil;
     mkEvent "user.deleted" "com.example.a" ANil].
Proof.
  apply (proj1 (proj2 (EmitEvent_bounded
                         [mkEvent "user.created" "com.example.a" ANil]
                         (mkEvent "user.deleted" "com.example.a" ANil)))).
  vm_compute. lia.
Defined.

(** ** Registry.SetConfig *)

Section RegistrySetConfigFacts.
Context {json : EncodingJSON} {W St : Type} {store : ConfigStorage St}.
Variables (decodeConfig : @Plugin W → string → W → W * option Err)
          (ValidateConfig : @Plugin W → W → option Err).
Implicit Types (r : @Registry W St) (p : @Plugin W).

(** X27. [Registry.SetConfig] for an id that is not registered returns
    the error of a plugin not found and changes nothing. When the
    configuration manager refuses the value, its error is returned and
    what the plugin owns is untouched. When the manager accepts the value,
    the value is saved and cached before the plugin is asked: whatever the
    decoding into the plugin and its [ValidateConfig] return, also an
    error, a [GetConfig] of the id afterwards returns the new value. *)
Theorem Registry_SetConfig_not_atomic r (w : W) (pluginID : string) (config : Any) :
  (plugins r !! pluginID = None →
   Registry_SetConfig decodeConfig ValidateConfig r w pluginID config
   = (r, w, Some (EPluginNotFound pluginID))) ∧
  (∀ p cm err,
      plugins r !! pluginID = Some p →
      SetConfig (configManager r) pluginID config = (cm, Some err) →
      Registry_SetConfig decodeConfig ValidateConfig r w pluginID config
      = (withConfigManager r cm, w, Some err)) ∧
  (∀ p cm,
      plugins r !! pluginID = Some p →
      SetConfig (configManager r) pluginID config = (cm, None) →
      ∃ w' res,
        Registry_SetConfig decodeConfig ValidateConfig r w pluginID config
        = (withConfigManager r cm, w', res) ∧
        (Registry_GetConfig (withConfigManager r cm) pluginID).2 = (config, true) ∧
        (∀ jsonData err,
            json_Marshal config = inr jsonData →
            decodeConfig p jsonData w = (w', None) →
            ValidateConfig p w' = Some err → res = Some err)).
Proof.
  unfold Registry_SetConfig. split_and!.
  - by intros ->.
  - intros p cm err -> ->. done.
  - intros p cm -> Hset. rewrite Hset.
    destruct (SetConfig_success _ _ _ _ Hset) as (configMap & _ & _ & Hcm).
    assert (Hget : GetConfig cm pluginID = (cm, (config, true))).
    { rewrite Hcm. unfold GetConfig. cbn [cache]. by rewrite lookup_insert_eq. }
    unfold LoadConfig. rewrite Hget.
    assert (Hread : (Registry_GetConfig (withConfigManager r cm) pluginID).2
                    = (config, true)).
    { unfold Registry_GetConfig, withConfigManager. cbn [configManager].
      by rewrite Hget. }
    destruct (json_Marshal config) as [merr|jsonData] eqn:Hm.
    + exists w, (Some merr). split_and!; try done.
    + destruct (decodeConfig p jsonData w) as [w1 [derr|]] eqn:Hd.
      * exists w1, (Some derr). split_and!; try done.
        intros jd err [= <-] Hd'. rewrite Hd in Hd'. congruence.
      * destruct (ValidateConfig p w1) as [verr|] eqn:Hv.
        -- exists w1, (Some verr). split_and!; try done.
           intros jd err [= <-] _ Hv'. congruence.
        -- exists w1, None. split_and!; try done.
           intros jd err [= <-] _ Hv'. congruence.
Qed.
End RegistrySetConfigFacts.

(** X27 on an id that is not registered. *)
Lemma Registry_SetConfig_not_atomic_witness :
  Registry_SetConfig (json := refusingJSON) keepText rejectConfig
    (NewRegistry None NewMemoryConfigStorage) "" "com.example.web" (portConfig 80)
  = (NewRegistry None NewMemoryConfigStorage, "",
     Some (EPluginNotFound "com.example.web")).
Proof.
  apply (proj1 (Registry_SetConfig_not_atomic (json := refusingJSON)
                  keepText rejectConfig
                  (NewRegistry None NewMemoryConfigStorage) ""
                  "com.example.web" (portConfig 80))).
  reflexivity.
Defined.

(** ** The provider table of the auth plugin *)

(** X28. [RegisterProvider] refuses a provider whose name is registered
    already and leaves the plugin as it was. Otherwise it succeeds:
    [GetProvider] of the name then returns the provider, the providers of
    the other names are those of before, and the active provider name is
    not changed. *)
Theorem RegisterProvider_GetProvider (p : Auth.Plugin) (provider : AuthProvider) :
  (is_Some (Auth.GetProvider p (ap_Name provider)) →
   Auth.RegisterProvider p provider
   = (p, Some (EProviderAlreadyRegistered (ap_Name provider)))) ∧
  (Auth.GetProvider p (ap_Name provider) = None →
   (Auth.RegisterProvider p provider).2 = None ∧
   Auth.GetProvider (Auth.RegisterProvider p provider).1 (ap_Name provider)
   = Some provider ∧
   Auth.active (Auth.RegisterProvider p provider).1 = Auth.active p ∧
   ∀ other, other ≠ ap_Name provider →
     Auth.GetProvider (Auth.RegisterProvider p provider).1 other
     = Auth.GetProvider p other).
Proof.
  unfold Auth.RegisterProvider, Auth.GetProvider. split.
  - intros [old Hold]. by rewrite Hold.
  - intros ->. simpl. split_and!; try done.
    + by rewrite lookup_insert_eq.
    + intros other Hne. by rewrite lookup_insert_ne by congruence.
Qed.

(** X29. [SetActiveProvider] with a name that is not registered returns
    an error and leaves the plugin as it was. With a registered name it
    succeeds, records the name in the configuration too, and
    [GetActiveProvider] then returns the provider of that name; the
    provider table is not changed. *)
Theorem SetActiveProvider_GetActiveProvider (p : Auth.Plugin) (name : string) :
  (Auth.GetProvider p name = None →
   Auth.SetActiveProvider p name = (p, Some (EProviderNotFound name))) ∧
  (∀ provider,
      Auth.GetProvider p name = Some provider →
      (Auth.SetActiveProvider p name).2 = None ∧
      Auth.GetActiveProvider (Auth.SetActiveProvider p name).1 = provider ∧
      Auth.active (Auth.SetActiveProvider p name).1 = name ∧
      Auth.config_ActiveProvider (Auth.SetActiveProvider p name).1 = name ∧
      Auth.providers (Auth.SetActiveProvider p name).1 = Auth.providers p).
Proof.
  unfold Auth.SetActiveProvider, Auth.GetProvider, Auth.GetActiveProvider. split.
  - by intros ->.
  - intros provider Hp. rewrite Hp. simpl. by rewrite Hp.
Qed.

(** X30. [Init] on the plugin as [NewPlugin] builds it registers the basic
    provider under its name and the [NoAuthProvider] under "none", and
    makes the provider named in the configuration, "basic", the active
    one: when the basic provider is named "basic", [GetActiveProvider]
    returns it, and [SetActiveProvider] with "none" then succeeds and
    makes the [NoAuthProvider] the active one. A second [Init] registers
    nothing more. *)
Theorem Init_registers_providers (basic : AuthProvider) :
  ap_Name basic = "basic" →
  let p := Auth.Init Auth.NewPlugin basic in
  Auth.GetProvider p "basic" = Some basic ∧
  Auth.GetProvider p "none" = Some NoAuthProvider ∧
  Auth.GetActiveProvider p = basic ∧
  Auth.SetActiveProvider p "none"
  = (Auth.mkPlugin (Auth.providers p) "none" "none", None) ∧
  Auth.GetActiveProvider (Auth.SetActiveProvider p "none").1 = NoAuthProvider ∧
  Auth.Init p basic = p.
Proof.
  intros Hname. cbv zeta.
  unfold Auth.Init, Auth.NewPlugin, Auth.RegisterProvider, Auth.GetProvider,
    Auth.GetActiveProvider, Auth.SetActiveProvider.
  rewrite Hname. cbn -[NoAuthProvider]. split_and!; try done.
Qed.

(** X28 on the plugin as [NewPlugin] builds it. *)
Lemma RegisterProvider_GetProvider_witness :
  Auth.GetProvider (Auth.RegisterProvider Auth.NewPlugin closedProvider).1 "basic"
  = Some closedProvider.
Proof.
  apply (proj2 (RegisterProvider_GetProvider Auth.NewPlugin closedProvider)).
  reflexivity.
Defined.

(** X29 on a name that is not registered. *)
Lemma SetActiveProvider_GetActiveProvider_witness :
  Auth.SetActiveProvider Auth.NewPlugin "ldap"
  = (Auth.NewPlugin, Some (EProviderNotFound "ldap")).
Proof.
  apply (proj1 (SetActiveProvider_GetActiveProvider Auth.NewPlugin "ldap")).
  reflexivity.
Defined.

(** X30 on a provider that lets nobody in. *)
Lemma Init_registers_providers_witness :
  Auth.GetActiveProvider (Auth.Init Auth.NewPlugin closedProvider) = closedProvider.
Proof.
  apply (Init_registers_providers closedProvider eq_refl).
Defined.
